(** * json-ws: the JavaScript proxy template and the proxy it generates

    The repository compiles the metadata of a service (types, methods,
    events) into the source of a client proxy.  Two programs are embedded
    here:

    - the generator: [lib/get-language-proxy.js] and the scriptlets of the
      JavaScript proxy template (enum accessors, namespace stubs, method
      stubs), which run once per compilation;
    - the generated proxy: the fixed part of the template (constructor,
      [rebind], transport switches, listener management) together with the
      statements the scriptlets emit, which run in the client.

    The generator is a function from metadata to a list of emitted
    fragments; the generated proxy is given by the meaning of those fragments
    on a store of JavaScript values and by state-passing functions on a heap
    of proxy instances. *)

From Stdlib Require Import ZArith Ascii String.
From stdpp Require Import base tactics option list strings gmap.

Set Warnings "-register-all".

Open Scope Z_scope.

(** ** JavaScript string primitives used by the template *)

Module JsString.

(** Position of the last occurrence of the character [c], if any. *)
Fixpoint last_index (c : ascii) (s : string) : option nat :=
  match s with
  | EmptyString => None
  | String a s' =>
      match last_index c s' with
      | Some i => Some (S i)
      | None => if Ascii.eqb a c then Some 0%nat else None
      end
  end.

(** [s.lastIndexOf(c)]: the position, or [-1]. *)
Definition lastIndexOf (s : string) (c : ascii) : Z :=
  match last_index c s with
  | Some i => Z.of_nat i
  | None => -1
  end.

(** [s.substr(start, len)] for a non-negative [start]. *)
Definition substr (s : string) (start len : Z) : string :=
  String.substring (Z.to_nat start) (Z.to_nat len) s.

(** The member chain [a.b.c] read back from emitted text: the segments
    between dots. *)
Fixpoint segments (s : string) : list string :=
  match s with
  | EmptyString => [EmptyString]
  | String a s' =>
      if Ascii.eqb a "."%char then EmptyString :: segments s'
      else match segments s' with
           | x :: xs => String a x :: xs
           | [] => [String a EmptyString]
           end
  end.

(** *** Names in the generated text *)

Definition is_letter (a : ascii) : bool :=
  let n := nat_of_ascii a in
  ((65 <=? n) && (n <=? 90) || (97 <=? n) && (n <=? 122))%nat.

Definition is_digit (a : ascii) : bool :=
  let n := nat_of_ascii a in ((48 <=? n) && (n <=? 57))%nat.

Definition identifier_start (a : ascii) : bool :=
  is_letter a || Ascii.eqb a "_"%char || Ascii.eqb a "$"%char.

Definition identifier_part (a : ascii) : bool :=
  identifier_start a || is_digit a.

Fixpoint all_chars (p : ascii → bool) (s : string) : bool :=
  match s with
  | EmptyString => true
  | String a s' => p a && all_chars p s'
  end.

(** An identifier name, which is what the text after a dot must be: a
    letter, [_] or [$], then letters, digits, [_] and [$].  Only ASCII is
    modelled.  A name with any other character (a letter outside ASCII,
    white space, an operator, a quote) either does not parse where the
    template pastes it or changes what the pasted text means; such names are
    outside the model and count as not parsing. *)
Definition identifier_name (s : string) : bool :=
  match s with
  | EmptyString => false
  | String a s' => identifier_start a && all_chars identifier_part s'
  end.

(** The reserved words of non-strict code. *)
Definition reserved_words : list string :=
  [ "break"; "case"; "catch"; "class"; "const"; "continue"; "debugger";
    "default"; "delete"; "do"; "else"; "enum"; "export"; "extends"; "false";
    "finally"; "for"; "function"; "if"; "import"; "in"; "instanceof"; "new";
    "null"; "return"; "super"; "switch"; "this"; "throw"; "true"; "try";
    "typeof"; "var"; "void"; "while"; "with" ].

(** A name that can be declared in non-strict code, as a formal parameter,
    a [var] or the name of a function: an identifier name that is not
    reserved.  After a dot the reserved words are allowed too. *)
Definition binding_identifier (s : string) : bool :=
  identifier_name s && bool_decide (s ∉ reserved_words).

End JsString.

Import JsString.

(** ** Metadata, as the template reads it *)

Record ParamDef := { p_name : string }.

(** [returns] is a type name or absent; [async] is the flag the service
    sets on asynchronous methods. *)
Record MethodDef := {
  params : list ParamDef;
  returns : option string;
  async : bool
}.

Record FieldDef := { f_type : string }.

(** A registered type: the template tests [type.enum] and reads
    [type.name] and [type.struct]. *)
Inductive TypeDef :=
  | EnumType (name : string) (struct : list (string * Z))
  | StructType (name : string) (fields : list (string * FieldDef)).

Record EventDef := { e_type : option string }.

(** Each table is an object; it is kept as its entries in [Object.keys]
    order. *)
Record Metadata := {
  types : list (string * TypeDef);
  methods : list (string * MethodDef);
  events : list (string * EventDef)
}.

(** ** Fragments emitted by the template scriptlets *)

Inductive fragment :=
  | EEnumAccessor (typeName : string) (struct : list (string * Z))
  | EEnumProp (typeName key : string) (value : Z)
  | EFreeze (typeName : string)
  | ENamespace (ns : string)
  | EMethod (methodName : string) (formals : list string)
            (expectReturn : bool).

Global Instance fragment_eq_dec : EqDecision fragment.
Proof. solve_decision. Defined.

(** Property names every object literal inherits from [Object.prototype];
    each holds a function or an object, so it reads as true in a test. *)
Definition Object_prototype_keys : list string :=
  [ "constructor"; "toString"; "toLocaleString"; "valueOf"; "hasOwnProperty";
    "isPrototypeOf"; "propertyIsEnumerable"; "__proto__";
    "__defineGetter__"; "__defineSetter__"; "__lookupGetter__";
    "__lookupSetter__" ].

Module Template.

(** *** [generateTypes] *)

Definition generateType (t : TypeDef) : list fragment :=
  match t with
  | EnumType name struct =>
      EEnumAccessor name struct
        :: map (fun kv => EEnumProp name (fst kv) (snd kv)) struct
        ++ [EFreeze name]
  | StructType _ _ => []
  end.

Definition generateTypes (md : Metadata) : list fragment :=
  concat (map (fun kt => generateType (snd kt)) (types md)).

(** *** Namespace stubs *)

(** The generator's variables [stubs] (an object used as a set) and the
    output written so far. *)
Record gen := { stubs : gmap string Z; out : list fragment }.

(** The test [if (stubs[ns])]: an own entry, or a property inherited
    from [Object.prototype]. *)
Definition stubs_truthy (s : gmap string Z) (ns : string) : bool :=
  match s !! ns with
  | Some v => negb (v =? 0)
  | None => bool_decide (ns ∈ Object_prototype_keys)
  end.

Fixpoint stubNamespace_fuel (fuel : nat) (ns : string) (st : gen) : gen :=
  let dot := lastIndexOf ns "." in
  let st1 :=
    if dot =? -1 then st
    else match fuel with
         | S fuel' => stubNamespace_fuel fuel' (substr ns 0 dot) st
         | O => st
         end in
  if stubs_truthy (stubs st1) ns then st1
  else {| stubs := <[ns := 1]> (stubs st1);
          out := out st1 ++ [ENamespace ns] |}.

(** The recursion strips one segment per call, so the length of the
    name bounds its depth. *)
Definition stubNamespace (ns : string) (st : gen) : gen :=
  stubNamespace_fuel (String.length ns) ns st.

(** The loop over [Object.keys(metadata.methods)] filling [namespaces]. *)
Definition collect (namespaces : list string) (methodName : string)
  : list string :=
  let dot := lastIndexOf methodName "." in
  if dot =? -1 then namespaces
  else
    let namespace := substr methodName 0 dot in
    if bool_decide (namespace ∈ namespaces) then namespaces
    else namespaces ++ [namespace].

Definition namespaces (md : Metadata) : list string :=
  foldl collect [] (map fst (methods md)).

Definition empty_gen : gen := {| stubs := ∅; out := [] |}.

(** [namespaces.forEach(stubNamespace)] *)
Definition generateNamespaces (md : Metadata) : list fragment :=
  out (foldl (fun st ns => stubNamespace ns st) empty_gen (namespaces md)).

(** *** Method stubs *)

Definition truthy_string (o : option string) : bool :=
  match o with
  | Some s => negb (String.eqb s "")
  | None => false
  end.

(** [printArgs]: the declared parameter names, in order.  The template
    pastes them, joined by commas, as the formal parameters of the stub. *)
Definition printArgs (m : MethodDef) : list string := map p_name (params m).

(** One stub: its formal parameters are the declared names, and their
    number is the bound written into [args.length = ...]. *)
Definition generateMethod (name : string) (m : MethodDef) : fragment :=
  EMethod name (printArgs m) (truthy_string (returns m) || async m).

Definition generateMethods (md : Metadata) : list fragment :=
  map (fun nm => generateMethod (fst nm) (snd nm)) (methods md).

(** The scriptlet part of the template, in emission order. *)
Definition render (md : Metadata) : list fragment :=
  generateTypes md ++ generateNamespaces md ++ generateMethods md.

End Template.

(** ** JavaScript values of the generated proxy *)

(** Address of a proxy instance on the heap. *)
Definition loc := nat.

(** The functions the fixed part of the template puts on the prototype. *)
Inductive member :=
  | UseHTTP | UseWS | Close | AddListener | RemoveListener | RemoveAllListeners.

(** Function objects created by the generated source.

    The body of a method stub reads three names that are not its own
    variables: [arguments], [Array] and [Math].  [FStub] is a stub none of
    whose formal parameters has one of these names: its formals play no part
    in its body, and it is determined by the method name, the number of
    formals and the flag.  [FShadowingStub] is a stub with a formal
    parameter of one of these names, kept with its formals. *)
Inductive func :=
  | FCtor (localName : string)
  | FMember (m : member)
  | FEnum (struct : list (string * Z))
  | FStub (methodName : string) (nparams : nat) (expectReturn : bool)
  | FShadowingStub (methodName : string) (formals : list string)
                   (expectReturn : bool)
  | FBound (target : func) (self : loc).

(** Values the generated source stores on the class: primitives, and
    objects with their own enumerable properties in enumeration order (each
    key once).  A function is an object that is callable. *)
Inductive node :=
  | NUndefined
  | NBool (b : bool)
  | NNum (n : Z)
  | NStr (s : string)
  | NObj (callable : option func) (props : list (string * node))
         (frozen : bool).

(** Values passed in by the caller. *)
Inductive jsval :=
  | VUndefined
  | VNull
  | VBool (b : bool)
  | VNum (n : Z)
  | VStr (s : string)
  | VFun (f : func)
  | VUserFun (id : nat)
  | VObject (id : nat)
  | VRef (l : loc).

Global Instance member_eq_dec : EqDecision member.
Proof. solve_decision. Defined.
Global Instance func_eq_dec : EqDecision func.
Proof. solve_decision. Defined.
Global Instance jsval_eq_dec : EqDecision jsval.
Proof. solve_decision. Defined.

Module Js.

Definition typeof (v : jsval) : string :=
  match v with
  | VUndefined => "undefined"
  | VNull => "object"
  | VBool _ => "boolean"
  | VNum _ => "number"
  | VStr _ => "string"
  | VFun _ | VUserFun _ => "function"
  | VObject _ | VRef _ => "object"
  end.

(** ToBoolean *)
Definition truthy (v : jsval) : bool :=
  match v with
  | VUndefined | VNull => false
  | VBool b => b
  | VNum n => negb (n =? 0)
  | VStr s => negb (String.eqb s "")
  | _ => true
  end.

Definition typeof_node (v : node) : string :=
  match v with
  | NUndefined => "undefined"
  | NBool _ => "boolean"
  | NNum _ => "number"
  | NStr _ => "string"
  | NObj (Some _) _ _ => "function"
  | NObj None _ _ => "object"
  end.

Definition truthy_node (v : node) : bool :=
  match v with
  | NUndefined => false
  | NBool b => b
  | NNum n => negb (n =? 0)
  | NStr s => negb (String.eqb s "")
  | NObj _ _ _ => true
  end.

(** *** Properties *)

Fixpoint lookup_prop (k : string) (ps : list (string * node))
  : option node :=
  match ps with
  | [] => None
  | (k', v) :: ps' => if String.eqb k k' then Some v else lookup_prop k ps'
  end.

Fixpoint set_prop (k : string) (v : node) (ps : list (string * node))
  : list (string * node) :=
  match ps with
  | [] => [(k, v)]
  | (k', v') :: ps' =>
      if String.eqb k k' then (k, v) :: ps'
      else (k', v') :: set_prop k v ps'
  end.

(** Number of formal parameters, the value of a function's [length]. *)
Fixpoint arity (f : func) : Z :=
  match f with
  | FCtor _ => 2
  | FMember (UseHTTP | UseWS | Close) => 0
  | FMember (AddListener | RemoveListener) => 2
  | FMember RemoveAllListeners => 1
  | FEnum _ => 1
  | FStub _ n _ => Z.of_nat n
  | FShadowingStub _ formals _ => Z.of_nat (length formals)
  | FBound t _ => arity t
  end.

(** A function's [name]: only the constructor is a named function
    expression. *)
Definition fname (f : func) : string :=
  match f with
  | FCtor localName => localName
  | FBound _ _ => "bound "
  | _ => ""
  end.

(** [o[k]] for an own property or a built-in own property of a function.
    Properties inherited from the built-in prototypes are not part of the
    store and read as [undefined] here. *)
Definition get (o : node) (k : string) : node :=
  match o with
  | NObj c ps _ =>
      match lookup_prop k ps with
      | Some v => v
      | None =>
          match c with
          | Some f =>
              if String.eqb k "length" then NNum (arity f)
              else if String.eqb k "name" then NStr (fname f)
              else NUndefined
          | None => NUndefined
          end
      end
  | NStr s => if String.eqb k "length"
              then NNum (Z.of_nat (String.length s)) else NUndefined
  | _ => NUndefined
  end.

(** Own properties of a function object that are not writable. *)
Definition readonly_function_keys : list string :=
  ["length"; "name"; "arguments"; "caller"].

(** [o[k] = v] in non-strict code.  Writing to a frozen object, to a
    non-writable property or to a primitive does nothing; writing to
    [undefined] raises.  [__proto__] is an inherited setter, not a
    property, and is outside the store: both give [None]. *)
Definition put (k : string) (v : node) (o : node) : option node :=
  if String.eqb k "__proto__" then None
  else
    match o with
    | NUndefined => None
    | NObj c ps frozen =>
        if frozen then Some o
        else if bool_decide (is_Some c ∧ k ∈ readonly_function_keys)
             then Some o
             else Some (NObj c (set_prop k v ps) frozen)
    | _ => Some o
    end.

(** [Object.freeze(o)] *)
Definition freeze (o : node) : node :=
  match o with
  | NObj c ps _ => NObj c ps true
  | _ => o
  end.

(** Apply [f] to the object reached from [o] along a member chain; the
    object is changed in place.  A link that is not an own property
    gives [None] ([undefined] raises a TypeError, inherited built-ins are
    outside the store). *)
Fixpoint update (path : list string) (f : node → option node) (o : node)
  : option node :=
  match path with
  | [] => f o
  | k :: rest =>
      match o with
      | NObj c ps fr =>
          child ← lookup_prop k ps;
          child' ← update rest f child;
          Some (NObj c (set_prop k child' ps) fr)
      | _ => None
      end
  end.

(** The assignment [root.k1.....kn = v]. *)
Definition assign (path : list string) (v : node) (root : node)
  : option node :=
  match last path with
  | Some k => update (removelast path) (put k v) root
  | None => None
  end.

(** A member chain pasted into the text parses when every segment is an
    identifier name; an empty segment (a leading, trailing or doubled dot)
    is none. *)
Definition parses (path : list string) : bool :=
  forallb identifier_name path.

End Js.

Import Js.

(** ** Meaning of the emitted fragments *)

Module Emitted.

(** The literal [{_ns:true}] *)
Definition container : node := NObj None [("_ns", NBool true)] false.

Definition fn (f : func) : node := NObj (Some f) [] false.

(** [Proxy.prototype] after the fixed part of the template has run.  In
    [on = addListener = function ...] the right-hand assignment comes
    first. *)
Definition template_prototype : list (string * node) :=
  [ ("useHTTP", fn (FMember UseHTTP));
    ("useWS", fn (FMember UseWS));
    ("close", fn (FMember Close));
    ("addListener", fn (FMember AddListener));
    ("on", fn (FMember AddListener));
    ("removeListener", fn (FMember RemoveListener));
    ("removeAllListeners", fn (FMember RemoveAllListeners)) ].

(** The constructor function object before the scriptlet output runs. *)
Definition template_class (localName : string) : node :=
  NObj (Some (FCtor localName))
       [("prototype", NObj None template_prototype false)] false.

Definition guarded (path : list string) (r : option node) : option node :=
  if parses path then r else None.

(** The names a stub's body reads that are not variables of its own:
    [Array.prototype.slice.call(arguments)] and [Math.min]. *)
Definition stub_free_names : list string := ["arguments"; "Array"; "Math"].

(** A formal parameter with one of these names captures it. *)
Definition shadowing (formals : list string) : bool :=
  existsb (fun x => bool_decide (x ∈ formals)) stub_free_names.

(** The function that the stub statement with these formals defines. *)
Definition stub_fn (m : string) (formals : list string) (er : bool) : func :=
  if shadowing formals then FShadowingStub m formals er
  else FStub m (length formals) er.

(** One emitted fragment, run on the constructor function object.  A
    statement that does not parse makes the whole source fail, so it gives
    [None] like a statement that raises.  The labels of an enum are checked
    with the statements that assign them. *)
Definition exec (fr : fragment) (cls : node) : option node :=
  match fr with
  | EEnumAccessor T struct =>
      guarded (segments T) (assign (segments T) (fn (FEnum struct)) cls)
  | EEnumProp T k v =>
      let path := segments T ++ segments k in
      guarded path (assign path (NNum v) cls)
  | EFreeze T =>
      guarded (segments T) (update (segments T) (fun o => Some (freeze o)) cls)
  | ENamespace ns =>
      guarded (segments ns) (assign ("prototype" :: segments ns) container cls)
  | EMethod m formals er =>
      guarded (segments m)
        (if forallb binding_identifier formals
         then assign ("prototype" :: segments m) (fn (stub_fn m formals er))
                     cls
         else None)
  end.

Fixpoint run (frs : list fragment) (cls : node) : option node :=
  match frs with
  | [] => Some cls
  | fr :: frs' => cls' ← exec fr cls; run frs' cls'
  end.

(** Names that the template's own text declares or reads where the local
    name is in scope.  A proxy class called like one of them changes what
    that text means (with [self], [url] or [arguments] the constructor's
    first test raises, with [Object] the statement [Object.freeze] does);
    such local names are outside the model. *)
Definition template_names : list string :=
  [ "RpcClient"; "inherits"; "EventEmitter"; "RpcTunnel"; "require";
    "Object"; "Array"; "Math"; "Error"; "self"; "url"; "sslSettings"; "i";
    "arguments" ].

(** The local name is declared by [var] and is the constructor's own name:
    it has to be a binding identifier. *)
Definition local_name_ok (localName : string) : bool :=
  binding_identifier localName && bool_decide (localName ∉ template_names).

(** The class defined by the source generated for [md].  [None]: the
    source does not parse or raises while it loads, or the local name is
    outside the model. *)
Definition load (localName : string) (md : Metadata) : option node :=
  if local_name_ok localName
  then run (Template.render md) (template_class localName)
  else None.

(** The accessor of enum type [T] on a loaded class. *)
Definition accessor (cls : node) (T : string) : node := get cls T.

Definition prototype (cls : node) : list (string * node) :=
  match get cls "prototype" with
  | NObj _ ps _ => ps
  | _ => []
  end.

End Emitted.

(** ** The generated proxy at run time *)

Inductive error :=
  | JsError (msg : string)
  | TypeError.

Inductive outcome (A : Type) :=
  | Ok (a : A)
  | Throw (e : error).
Arguments Ok {A} a.
Arguments Throw {A} e.

(** The options object handed to the tunnel's [call]; a field that the
    caller leaves out is [None]. *)
Record rpc_call := {
  c_method : string;
  c_params : list jsval;
  c_expectReturn : option bool;
  c_transport : option string;
  c_callback : jsval
}.

(** Modelled from the spec: the tunnel ([RpcClient.tunnel]) is an external
    collaborator; it is bound to a URL and optional transport-security
    settings, dispatch is delegated to it, and [close] releases it.  Kept
    here as the record of what the proxy asked of it. *)
Record tunnel := {
  t_url : jsval;
  t_ssl : jsval;
  t_calls : list rpc_call;
  t_closed : bool
}.

(** A proxy instance.  [defaultTransport] and [rpc] are unset until the
    constructor assigns them; [own] holds the rebound namespace trees;
    [listeners] is the state of the event-emitter base. *)
Record instance := {
  defaultTransport : option string;
  rpc : option tunnel;
  listeners : gmap string (list jsval);
  own : list (string * node)
}.

(** The heap of proxy instances; an instance's address is its index. *)
Abbreviation heap := (list instance).

Module Runtime.

Definition blank : instance :=
  {| defaultTransport := None; rpc := None; listeners := ∅; own := [] |}.

Definition set_transport (t : string) (i : instance) : instance :=
  {| defaultTransport := Some t; rpc := rpc i;
     listeners := listeners i; own := own i |}.

Definition set_rpc (t : tunnel) (i : instance) : instance :=
  {| defaultTransport := defaultTransport i; rpc := Some t;
     listeners := listeners i; own := own i |}.

Definition set_listeners (ls : gmap string (list jsval)) (i : instance)
  : instance :=
  {| defaultTransport := defaultTransport i; rpc := rpc i;
     listeners := ls; own := own i |}.

Definition set_own (o : list (string * node)) (i : instance) : instance :=
  {| defaultTransport := defaultTransport i; rpc := rpc i;
     listeners := listeners i; own := o |}.

Definition log_call (c : rpc_call) (t : tunnel) : tunnel :=
  {| t_url := t_url t; t_ssl := t_ssl t;
     t_calls := t_calls t ++ [c]; t_closed := t_closed t |}.

(** Calls the tunnel of instance [l] has been asked to make. *)
Definition calls (h : heap) (l : loc) : list rpc_call :=
  match h !! l with
  | Some i => match rpc i with Some t => t_calls t | None => [] end
  | None => []
  end.

(** [this.rpc.call(c)]: raises when [this] has no tunnel. *)
Definition rpc_send (l : loc) (c : rpc_call) (h : heap) : outcome heap :=
  match h !! l with
  | Some i =>
      match rpc i with
      | Some t => Ok (<[l := set_rpc (log_call c t) i]> h)
      | None => Throw TypeError
      end
  | None => Throw TypeError
  end.

(** *** Constructor *)

Definition js_not (v : jsval) : jsval := VBool (negb (truthy v)).

(** [v instanceof Proxy]: only an object can be an instance; the heap
    holds the objects made by [new Proxy]. *)
Definition instanceOf (h : heap) (v : jsval) : bool :=
  match v with
  | VRef l => bool_decide (is_Some (h !! l))
  | _ => false
  end.

(** The condition of the first [if]: [!this instanceof Proxy], in which
    [!] binds tighter than [instanceof]. *)
Definition guard (h : heap) (this : jsval) : bool :=
  instanceOf h (js_not this).

(** [!url || typeof url !== 'string'] *)
Definition invalid_url (url : jsval) : bool :=
  negb (truthy url) || negb (String.eqb (typeof url) "string").

(** [f.bind(self)]: a new function object without properties of its
    own. *)
Definition bind (f : func) (self : loc) : node :=
  NObj (Some (FBound f self)) [] false.

(** The inner function [rebind].  It is only ever called on objects;
    [result] gets one entry per function or object property, in
    enumeration order, and none for the others. *)
Fixpoint rebind (self : loc) (obj : node) {struct obj} : node :=
  match obj with
  | NObj _ ps _ =>
      NObj None
        (omap (fun entry : string * node =>
                 match snd entry with
                 | NObj (Some f) _ _ => Some (fst entry, bind f self)
                 | NObj None _ _ => Some (fst entry, rebind self (snd entry))
                 | _ => None
                 end) ps)
        false
  | _ => NObj None [] false
  end.

(** One turn of [for (var i in this)] for a key that comes from the
    prototype.  The own properties [defaultTransport] and [rpc] shadow
    prototype entries of the same name and carry no [_ns]. *)
Definition rebind_step (self : loc) (acc : list (string * node))
  (entry : string * node) : list (string * node) :=
  let '(i, v) := entry in
  if bool_decide (i ∈ ["defaultTransport"; "rpc"]) then acc
  else if truthy_node v && truthy_node (get v "_ns")
       then set_prop i (rebind self v) acc
       else acc.

(** The loop [for (var i in this)].  The keys inherited from the
    event-emitter base hold functions without [_ns] and change nothing. *)
Definition rebind_all (self : loc) (proto : list (string * node))
  : list (string * node) :=
  foldl (rebind_step self) [] proto.

Definition new_tunnel (url ssl : jsval) : tunnel :=
  {| t_url := url; t_ssl := ssl; t_calls := []; t_closed := false |}.

(** The body of the constructor, run on receiver [this].  [new_] stands
    for [new Proxy(url)] in the first branch.  Called on anything but a
    fresh instance the assignments land outside the heap: [None].  The
    handler the body registers with the tunnel, which re-emits inbound
    events to the local listeners, adds nothing to the instance and is left
    out. *)
Definition Proxy_call
  (new_ : jsval → heap → option (outcome (jsval * heap)))
  (cls : node) (this url sslSettings : jsval) (h : heap)
  : option (outcome (jsval * heap)) :=
  if guard h this then new_ url h
  else if invalid_url url then Some (Throw (JsError "Invalid proxy URL"))
  else
    match this with
    | VRef self =>
        i ← h !! self;
        let i1 := set_transport "http" i in
        let i2 := set_rpc (new_tunnel url sslSettings) i1 in
        let i3 := set_own (rebind_all self (Emitted.prototype cls)) i2 in
        Some (Ok (VUndefined, <[self := i3]> h))
    | _ => None
    end.

(** [new Proxy(url, sslSettings)]: allocate, run the body, and keep the
    new object unless the body returns an object of its own.  [fuel]
    bounds the nesting of [new] inside the body. *)
Fixpoint new_Proxy (fuel : nat) (cls : node) (url sslSettings : jsval)
  (h : heap) : option (outcome (loc * heap)) :=
  let self := length h in
  let nested u h' :=
    match fuel with
    | O => None
    | S fuel' =>
        match new_Proxy fuel' cls u VUndefined h' with
        | Some (Ok (l, h'')) => Some (Ok (VRef l, h''))
        | Some (Throw e) => Some (Throw e)
        | None => None
        end
    end in
  match Proxy_call nested cls (VRef self) url sslSettings (h ++ [blank]) with
  | Some (Ok (VRef l, h')) => Some (Ok (l, h'))
  | Some (Ok (_, h')) => Some (Ok (self, h'))
  | Some (Throw e) => Some (Throw e)
  | None => None
  end.

(** *** Method stubs *)

(** [callback = args.pop()] when the last argument is a function. *)
Definition split_callback (args : list jsval) : list jsval * jsval :=
  match last args with
  | Some v =>
      if String.eqb (typeof v) "function" then (removelast args, v)
      else (args, VNull)
  | None => (args, VNull)
  end.

(** The statement the template picks for [args.length = ...]. *)
Definition truncate (nparams : nat) (args : list jsval) : list jsval :=
  if (0 <? nparams)%nat then take (min nparams (length args)) args
  else take 0 args.

Definition stub_request (methodName : string) (nparams : nat)
  (expectReturn : bool) (transport : option string) (args : list jsval)
  : rpc_call :=
  let '(args1, callback) := split_callback args in
  {| c_method := methodName;
     c_params := truncate nparams args1;
     c_expectReturn := Some expectReturn;
     c_transport := transport;
     c_callback := callback |}.

(** A stub run on receiver [this].  What the tunnel's [call] returns is
    not known here; the stub's result is kept as [undefined].  Without a
    receiver [this.rpc] is undefined and the call raises; a receiver that
    is no proxy instance is outside the heap. *)
Definition stub_call (methodName : string) (nparams : nat)
  (expectReturn : bool) (this : jsval) (args : list jsval) (h : heap)
  : option (outcome (jsval * heap)) :=
  match this with
  | VRef l =>
      match h !! l with
      | Some i =>
          match rpc_send l (stub_request methodName nparams expectReturn
                              (defaultTransport i) args) h with
          | Ok h' => Some (Ok (VUndefined, h'))
          | Throw e => Some (Throw e)
          end
      | None => None
      end
  | VUndefined => Some (Throw TypeError)
  | _ => None
  end.

(** *** Method stubs whose formals capture a name of the body *)

(** The position of the last formal parameter called [x]: the one that
    the name [x] denotes in the body. *)
Fixpoint last_formal (x : string) (formals : list string) (n : nat)
  : option nat :=
  match formals with
  | [] => None
  | p :: formals' =>
      match last_formal x formals' (S n) with
      | Some j => Some j
      | None => if String.eqb p x then Some n else None
      end
  end.

(** The value of the formal parameter called [x], if there is one: the
    argument at its position, [undefined] when the call is shorter. *)
Definition formal_value (x : string) (formals : list string)
  (args : list jsval) : option jsval :=
  j ← last_formal x formals 0; Some (default VUndefined (args !! j)).

Definition not_an_object (v : jsval) : bool :=
  match v with
  | VUndefined | VNull | VBool _ | VNum _ | VStr _ => true
  | _ => false
  end.

(** [v.prototype.slice.call(...)] and [v.min(...)] for a value [v] that
    stands where [Array] or [Math] is meant.  On [undefined] and [null]
    the property read raises; on another primitive it gives [undefined], and
    the next step raises.  The properties of objects and functions passed
    in by the caller are not known: [None]. *)
Definition call_on_captured (v : jsval) : option error :=
  if not_an_object v then Some TypeError else None.

(** [Array.prototype.slice.call(v)] for a value [v] that is not the
    arguments object: it raises on [undefined] and [null], a boolean or a
    number has no elements, a string has its characters.  Objects passed in
    by the caller: [None]. *)
Definition slice_call (v : jsval) : option (outcome (list jsval)) :=
  match v with
  | VUndefined | VNull => Some (Throw TypeError)
  | VBool _ | VNum _ => Some (Ok [])
  | VStr s =>
      Some (Ok (map (fun c => VStr (String c EmptyString))
                    (list_ascii_of_string s)))
  | _ => None
  end.

(** [var args = Array.prototype.slice.call(arguments)] *)
Definition sliced_arguments (formals : list string) (args : list jsval)
  : option (outcome (list jsval)) :=
  match formal_value "Array" formals args with
  | Some v =>
      match call_on_captured v with
      | Some e => Some (Throw e)
      | None => None
      end
  | None =>
      match formal_value "arguments" formals args with
      | Some v => slice_call v
      | None => Some (Ok args)
      end
  end.

(** [args.length = Math.min(n, args.length)]; with a formal called [Math]
    there is at least one formal, and this is the statement the template
    picked. *)
Definition truncated (formals : list string) (actual args : list jsval)
  : option (outcome (list jsval)) :=
  match formal_value "Math" formals actual with
  | Some v =>
      match call_on_captured v with
      | Some e => Some (Throw e)
      | None => None
      end
  | None => Some (Ok (truncate (length formals) args))
  end.

(** The options object and callback a stub with these formals builds
    from its arguments. *)
Definition shadowing_stub_request (methodName : string)
  (formals : list string) (expectReturn : bool) (transport : option string)
  (args : list jsval) : option (outcome rpc_call) :=
  match sliced_arguments formals args with
  | Some (Ok args0) =>
      let '(args1, callback) := split_callback args0 in
      match truncated formals args args1 with
      | Some (Ok args2) =>
          Some (Ok {| c_method := methodName;
                      c_params := args2;
                      c_expectReturn := Some expectReturn;
                      c_transport := transport;
                      c_callback := callback |})
      | Some (Throw e) => Some (Throw e)
      | None => None
      end
  | Some (Throw e) => Some (Throw e)
  | None => None
  end.

(** A stub with capturing formals, run on receiver [this].  Its first
    statements run whatever the receiver is. *)
Definition shadowing_stub_call (methodName : string) (formals : list string)
  (expectReturn : bool) (this : jsval) (args : list jsval) (h : heap)
  : option (outcome (jsval * heap)) :=
  let transport :=
    match this with
    | VRef l => i ← h !! l; defaultTransport i
    | _ => None
    end in
  match shadowing_stub_request methodName formals expectReturn transport
          args with
  | Some (Ok c) =>
      match this with
      | VRef l =>
          match h !! l with
          | Some i =>
              match rpc_send l c h with
              | Ok h' => Some (Ok (VUndefined, h'))
              | Throw e => Some (Throw e)
              end
          | None => None
          end
      | VUndefined => Some (Throw TypeError)
      | _ => None
      end
  | Some (Throw e) => Some (Throw e)
  | None => None
  end.

(** *** Enum accessors *)

(** The test of a [case] whose label is a string or number literal. *)
Definition case_matches (label val : jsval) : bool :=
  match label, val with
  | VStr a, VStr b => String.eqb a b
  | VNum a, VNum b => a =? b
  | _, _ => false
  end.

Fixpoint switch (cases : list (jsval * jsval)) (val : jsval) : jsval :=
  match cases with
  | [] => VUndefined
  | (label, result) :: cases' =>
      if case_matches label val then result else switch cases' val
  end.

(** The cases in the order the template writes them: all labels, then
    all values. *)
Definition enum_cases (struct : list (string * Z)) : list (jsval * jsval) :=
  map (fun kv => (VStr (fst kv), VNum (snd kv))) struct
  ++ map (fun kv => (VNum (snd kv), VStr (fst kv))) struct.

Definition enum_call (struct : list (string * Z)) (val : jsval) : jsval :=
  switch (enum_cases struct) val.

(** *** Event-emitter base *)

(** Modelled from the spec: the event-emitter base ([RpcClient.ports.EventEmitter])
    is an external collaborator; it keeps, per event name, the list of
    listeners in registration order. *)
Definition listeners_of (i : instance) (type : string) : list jsval :=
  default [] (listeners i !! type).

Definition EventEmitter_addListener (type : string) (listener : jsval)
  (i : instance) : instance :=
  set_listeners (<[type := listeners_of i type ++ [listener]]> (listeners i)) i.

Fixpoint remove_one (x : jsval) (ls : list jsval) : list jsval :=
  match ls with
  | [] => []
  | y :: ls' => if bool_decide (x = y) then ls' else y :: remove_one x ls'
  end.

(** The most recently added occurrence is the one removed. *)
Definition EventEmitter_removeListener (type : string) (listener : jsval)
  (i : instance) : instance :=
  match listeners i !! type with
  | Some ls =>
      set_listeners
        (<[type := rev (remove_one listener (rev ls))]> (listeners i)) i
  | None => i
  end.

Definition EventEmitter_removeAllListeners (type : string) (i : instance)
  : instance :=
  set_listeners (delete type (listeners i)) i.

(** *** Prototype members, run on the instance at [this] *)

Definition useHTTP (this : loc) (h : heap)
  : option (outcome (jsval * heap)) :=
  i ← h !! this;
  Some (Ok (VRef this, <[this := set_transport "http" i]> h)).

Definition useWS (this : loc) (h : heap)
  : option (outcome (jsval * heap)) :=
  i ← h !! this;
  Some (Ok (VRef this, <[this := set_transport "ws" i]> h)).

Definition close (this : loc) (h : heap)
  : option (outcome (jsval * heap)) :=
  i ← h !! this;
  match rpc i with
  | Some t =>
      let t' := {| t_url := t_url t; t_ssl := t_ssl t;
                   t_calls := t_calls t; t_closed := true |} in
      Some (Ok (VUndefined, <[this := set_rpc t' i]> h))
  | None => Some (Throw TypeError)
  end.

(** [{ method: m, params: [type], transport: 'ws' }], sent without a
    callback. *)
Definition control (m : string) (type : string) : rpc_call :=
  {| c_method := m; c_params := [VStr type]; c_expectReturn := None;
     c_transport := Some "ws"; c_callback := VUndefined |}.

Definition addListener (this : loc) (type : string) (listener : jsval)
  (h : heap) : option (outcome (jsval * heap)) :=
  i ← h !! this;
  let sent :=
    if (length (listeners_of i type) =? 0)%nat
    then rpc_send this (control "rpc.on" type) h
    else Ok h in
  match sent with
  | Ok h1 =>
      i1 ← h1 !! this;
      Some (Ok (VUndefined,
                <[this := EventEmitter_addListener type listener i1]> h1))
  | Throw e => Some (Throw e)
  end.

Definition removeListener (this : loc) (type : string) (listener : jsval)
  (h : heap) : option (outcome (jsval * heap)) :=
  i ← h !! this;
  let i1 := EventEmitter_removeListener type listener i in
  let h1 := <[this := i1]> h in
  if (length (listeners_of i1 type) =? 0)%nat
  then match rpc_send this (control "rpc.off" type) h1 with
       | Ok h2 => Some (Ok (VUndefined, h2))
       | Throw e => Some (Throw e)
       end
  else Some (Ok (VUndefined, h1)).

Definition removeAllListeners (this : loc) (type : string) (h : heap)
  : option (outcome (jsval * heap)) :=
  i ← h !! this;
  let h1 := <[this := EventEmitter_removeAllListeners type i]> h in
  match rpc_send this (control "rpc.off" type) h1 with
  | Ok h2 => Some (Ok (VUndefined, h2))
  | Throw e => Some (Throw e)
  end.

(** *** Calls *)

Definition arg (n : nat) (args : list jsval) : jsval :=
  default VUndefined (args !! n).

(** A prototype member called with [this] an instance.  Event names are
    strings; any other first argument is outside the model. *)
Definition member_call (m : member) (this : loc) (args : list jsval)
  (h : heap) : option (outcome (jsval * heap)) :=
  match m with
  | UseHTTP => useHTTP this h
  | UseWS => useWS this h
  | Close => close this h
  | AddListener =>
      match arg 0 args with
      | VStr type => addListener this type (arg 1 args) h
      | _ => None
      end
  | RemoveListener =>
      match arg 0 args with
      | VStr type => removeListener this type (arg 1 args) h
      | _ => None
      end
  | RemoveAllListeners =>
      match arg 0 args with
      | VStr type => removeAllListeners this type h
      | _ => None
      end
  end.

(** [f.call(this, ...args)].  A bound function ignores the receiver it is
    called on.  [None]: the call leaves the modelled heap (a member run on
    something that is not a proxy instance, the constructor called as a
    plain function). *)
Fixpoint call_func (f : func) (this : jsval) (args : list jsval) (h : heap)
  : option (outcome (jsval * heap)) :=
  match f with
  | FBound target self => call_func target (VRef self) args h
  | FStub m n er => stub_call m n er this args h
  | FShadowingStub m formals er => shadowing_stub_call m formals er this args h
  | FEnum struct => Some (Ok (enum_call struct (arg 0 args), h))
  | FMember m =>
      match this with
      | VRef l => member_call m l args h
      | _ => None
      end
  | FCtor _ => None
  end.

(** Names an instance inherits from the event-emitter base and from
    [Object.prototype]; they are not part of the store. *)
Definition inherited_keys : list string :=
  [ "emit"; "listeners"; "once"; "off"; "setMaxListeners";
    "getMaxListeners"; "listenerCount"; "eventNames"; "rawListeners";
    "prependListener"; "prependOnceListener" ] ++ Object_prototype_keys.

(** The own property [k] of an instance, if it has one: the two fields
    the constructor assigns, once assigned, and the properties its loop
    adds.  The transport is a string; the tunnel is an object of the
    library and no value of the store, which the inner [None] stands
    for. *)
Definition own_property (i : instance) (k : string) : option (option node) :=
  if String.eqb k "defaultTransport"
  then t ← defaultTransport i; Some (Some (NStr t))
  else if String.eqb k "rpc" then _ ← rpc i; Some None
  else v ← lookup_prop k (own i); Some (Some v).

(** The value of [proxy.k]: an own property, else the prototype's.
    [None]: the tunnel. *)
Definition member_value (cls : node) (i : instance) (k : string)
  : option node :=
  match own_property i k with
  | Some v => v
  | None => Some (default NUndefined (lookup_prop k (Emitted.prototype cls)))
  end.

(** [proxy.k(...args)] for the instance at [l].  The tunnel is not a
    function. *)
Definition invoke (cls : node) (l : loc) (k : string) (args : list jsval)
  (h : heap) : option (outcome (jsval * heap)) :=
  i ← h !! l;
  match member_value cls i k with
  | Some (NObj (Some f) _ _) => call_func f (VRef l) args h
  | Some NUndefined =>
      if bool_decide (k ∈ inherited_keys) then None
      else Some (Throw TypeError)
  | Some _ => Some (Throw TypeError)
  | None => Some (Throw TypeError)
  end.

(** The value reached from [v] along a chain of property reads. *)
Fixpoint reach (v : node) (path : list string) : node :=
  match path with
  | [] => v
  | k :: rest => reach (get v k) rest
  end.

End Runtime.

(** ** The compiler entry point, [lib/get-language-proxy.js] *)

Module Entry.

Record options := {
  serviceInstance : Metadata;
  language : string;
  localName : option string
}.

(** How the promise returned by [getLanguageProxy] settles; [StatError]
    and [RenderError] are the two [reject(err)] sites. *)
Inductive settled :=
  | Resolved (html : string)
  | StatError (err : string)
  | RenderError (err : string).

Section WithHost.

(** The host: [fs.stat] on a path gives an error or succeeds, and
    [ejs.renderFile] on a template path and its data gives an error or
    the rendered text. *)
Variable stat : string → option string.
Variable renderFile : string → Metadata → string → string + string.

(** [path.resolve(__dirname, '..', 'proxies', language + '.ejs')], as
    the path below the package root. *)
Definition proxyScript (o : options) : string :=
  "proxies/" +:+ language o +:+ ".ejs".

(** [options.localName || 'Proxy'] *)
Definition localName_or_default (o : options) : string :=
  match localName o with
  | Some n => if String.eqb n "" then "Proxy" else n
  | None => "Proxy"
  end.

Definition getLanguageProxy (o : options) : settled :=
  match stat (proxyScript o) with
  | Some err => StatError err
  | None =>
      match renderFile (proxyScript o) (serviceInstance o)
                       (localName_or_default o) with
      | inl err => RenderError err
      | inr html => Resolved html
      end
  end.

End WithHost.

End Entry.

(** ** Notions used to state the properties *)

Module Props.

Import Template Emitted Runtime.

(** The name with its last dot segment stripped, as the template
    computes it; none when there is no dot. *)
Definition parent (s : string) : option string :=
  let dot := lastIndexOf s "." in
  if dot =? -1 then None else Some (substr s 0 dot).

(** [implied s p]: [p] is reached from the name [s] by stripping the
    last dot segment one or more times. *)
Inductive implied : string → string → Prop :=
  | implied_parent s p : parent s = Some p → implied s p
  | implied_further s p q : parent s = Some p → implied p q → implied s q.

(** [before a b l]: some occurrence of [a] in [l] comes strictly before
    an occurrence of [b]. *)
Definition before {A} (a b : A) (l : list A) : Prop :=
  ∃ l1 l2 l3, l = l1 ++ a :: l2 ++ b :: l3.

(** A namespace counts as dealt with by [stubNamespace] once [stubs]
    reads true for it: its stub has been written, or its name is one
    that [stubs] inherits. *)
Definition covered (st : gen) (p : string) : Prop :=
  p ∈ Object_prototype_keys ∨ ENamespace p ∈ out st.

(** What holds of the generator's state between calls of
    [stubNamespace]. *)
Record stubs_inv (st : gen) : Prop := {
  inv_own : ∀ p, is_Some (stubs st !! p) ↔ ENamespace p ∈ out st;
  inv_one : ∀ p v, stubs st !! p = Some v → v = 1;
  inv_nodup : NoDup (out st);
  inv_parent : ∀ p q,
    ENamespace p ∈ out st → parent p = Some q →
    q ∈ Object_prototype_keys
    ∨ before (ENamespace q) (ENamespace p) (out st)
}.

(** A function object as the emitted source creates it: not the result
    of [bind]. *)
Definition plain (f : func) : Prop :=
  match f with
  | FBound _ _ => False
  | _ => True
  end.

(** Stores the emitted source can build: every object lists each key
    once, and no function in it is bound. *)
Inductive wf : node → Prop :=
  | wf_undefined : wf NUndefined
  | wf_bool b : wf (NBool b)
  | wf_num n : wf (NNum n)
  | wf_str s : wf (NStr s)
  | wf_obj c ps fr :
      NoDup (map fst ps) →
      (∀ f, c = Some f → plain f) →
      Forall (fun kv => wf (snd kv)) ps →
      wf (NObj c ps fr).

(** Values that are not objects. *)
Definition primitive (v : node) : Prop :=
  match v with
  | NObj _ _ _ => False
  | _ => True
  end.




(** The instance the constructor leaves at address [self]. *)
Definition constructed (cls : node) (self : loc) (url ssl : jsval)
  : instance :=
  set_own (rebind_all self (prototype cls))
    (set_rpc (new_tunnel url ssl) (set_transport "http" blank)).

(** A name that parses after a dot and that an assignment to a function
    object can set: an identifier name that is no read-only or accessor
    property of functions. *)
Definition assignable (k : string) : bool :=
  identifier_name k
  && negb (String.eqb k "__proto__")
  && bool_decide (k ∉ readonly_function_keys).

(** The properties the statements [Proxy.T.label = value] leave on an
    accessor, written in order. *)
Definition enum_props (struct : list (string * Z)) : list (string * node) :=
  foldl (fun ps kv => set_prop (fst kv) (NNum (snd kv)) ps) [] struct.

(** The instance a function runs on when called on [this]: a bound
    function runs on the instance it was bound to. *)
Fixpoint runs_on (f : func) (this : jsval) : jsval :=
  match f with
  | FBound target self => runs_on target (VRef self)
  | _ => this
  end.

(** Read a chain of own properties, passing through plain objects (no
    functions) only. *)
Fixpoint resolve (v : node) (path : list string) : option node :=
  match path with
  | [] => Some v
  | k :: rest =>
      match v with
      | NObj None ps _ => child ← lookup_prop k ps; resolve child rest
      | _ => None
      end
  end.

(** The text of a member chain: its segments joined by dots. *)
Fixpoint join_dots (l : list string) : string :=
  match l with
  | [] => ""
  | [x] => x
  | x :: rest => x +:+ "." +:+ join_dots rest
  end.

(** A segment an emitted assignment can use as a key: an identifier name
    other than [__proto__], which is a setter and no property. *)
Definition valid_segment (x : string) : bool :=
  identifier_name x && negb (String.eqb x "__proto__").

(** A method name whose segments are valid keys and whose first segment,
    when it names a namespace, is no name that object literals inherit (for
    such a namespace no container is emitted). *)
Definition name_ok (m : string) : bool :=
  forallb valid_segment (segments m)
  && match segments m with
     | first :: _ :: _ => bool_decide (first ∉ Object_prototype_keys)
     | _ => true
     end.

(** An enum type with an assignable name other than [prototype], which
    the later statements need, and assignable labels; struct types emit
    nothing. *)
Definition type_ok (t : TypeDef) : bool :=
  match t with
  | EnumType T struct =>
      assignable T && negb (String.eqb T "prototype")
      && forallb (fun kv => assignable (fst kv)) struct
  | StructType _ _ => true
  end.

(** Metadata for which the emitted source loads: sound type and method
    names, parameter names that can be declared, each method name once, and
    no method name that is also a namespace of another (no member chain is a
    prefix of another). *)
Definition loadable (md : Metadata) : bool :=
  forallb (fun kt => type_ok (snd kt)) (types md)
  && forallb name_ok (map fst (methods md))
  && forallb (fun nm => forallb binding_identifier (printArgs (snd nm)))
             (methods md)
  && bool_decide (NoDup (map fst (methods md)))
  && forallb (fun m =>
       forallb (fun m' =>
         bool_decide (segments m `prefix_of` segments m' → m = m'))
         (map fst (methods md)))
       (map fst (methods md)).

(** The stub the template emits for a method. *)
Definition stub_of (m : string) (def : MethodDef) : func :=
  stub_fn m (printArgs def) (truthy_string (returns def) || async def).

(** A plain object that is not frozen. *)
Definition plain_object (v : node) : Prop :=
  ∃ ps, v = NObj None ps false.

(** [v]'s [_ns] reads true. *)
Definition flagged (v : node) : Prop :=
  truthy_node (get v "_ns") = true.

(** A URL the constructor accepts: a string that is not empty. *)
Definition nonempty_string (v : jsval) : bool :=
  match v with
  | VStr s => negb (String.eqb s "")
  | _ => false
  end.


End Props.

(** ** Sample inputs *)

Module Examples.

Import Template Emitted Runtime Props.

(** A heap with one constructed proxy that has no namespaces. *)
Definition one_proxy : heap :=
  [ {| defaultTransport := Some "http";
       rpc := Some (new_tunnel (VStr "http://host") VUndefined);
       listeners := ∅; own := [] |} ].

(** Enum [Mode = {A: 0, B: 1}] and the asynchronous method [vray.start]
    without parameters. *)
Definition scenario : Metadata :=
  {| types := [("Mode", EnumType "Mode" [("A", 0); ("B", 1)])];
     methods := [("vray.start",
                  {| params := []; returns := None; async := true |})];
     events := [] |}.

(** An enum with a member called [length]. *)
Definition dimension : Metadata :=
  {| types := [("Dim", EnumType "Dim" [("length", 5)])];
     methods := []; events := [] |}.


(** A host with the JavaScript template only. *)
Definition host_stat (path : string) : option string :=
  if String.eqb path "proxies/JavaScript.ejs" then None else Some "ENOENT".

Definition host_renderFile (path : string) (md : Metadata) (name : string)
  : string + string :=
  inr ("var " +:+ name +:+ " = exports." +:+ name).

(** Two methods in nested namespaces and one at the top. *)
Definition nested : Metadata :=
  {| types := [];
     methods := [("a.b.foo", {| params := []; returns := None; async := false |});
                 ("a.bar", {| params := [ {| p_name := "x" |} ];
                              returns := Some "int"; async := false |});
                 ("top", {| params := []; returns := None; async := false |})];
     events := [] |}.

(** The class generated for [nested] under the name [Tester], the member
    [a] of its prototype, and the instance [new Tester('http://host')]
    leaves on the empty heap. *)
Definition nested_class : node :=
  Eval vm_compute in default NUndefined (load "Tester" nested).


Definition nested_instance : instance :=
  Eval vm_compute in
    constructed nested_class 0%nat (VStr "http://host") VUndefined.

(** The enum of the rendering modes. *)
Definition modes : list (string * Z) :=
  [("Production", -1); ("RtCpu", 0); ("RtGpuOpenCL", 4); ("RtGpuCUDA", 5)].

(** A container holding a method [b] to which a further method [c] was
    attached. *)
Definition method_with_member : node :=
  NObj None
    [("_ns", NBool true);
     ("b", NObj (Some (FStub "a.b" 0 false))
             [("c", fn (FStub "a.b.c" 0 false))] false)] false.

(** A method with a parameter called [arguments]. *)
Definition shadowed : Metadata :=
  {| types := [];
     methods := [("list",
                  {| params := [ {| p_name := "path" |};
                                 {| p_name := "arguments" |} ];
                     returns := None; async := false |})];
     events := [] |}.

(** A method [a] and a method [a.b] in the namespace of the same name. *)
Definition overlapping : Metadata :=
  {| types := [];
     methods := [("a", {| params := []; returns := None; async := false |});
                 ("a.b", {| params := []; returns := None; async := false |})];
     events := [] |}.

(** The characters of a string, as [Array.prototype.slice] lists them. *)
Definition characters (s : string) : list jsval :=
  map (fun c => VStr (String c EmptyString)) (list_ascii_of_string s).

(** A heap with two constructed proxies. *)
Definition two_proxies : heap :=
  [ {| defaultTransport := Some "http";
       rpc := Some (new_tunnel (VStr "http://one") VUndefined);
       listeners := ∅; own := [] |};
    {| defaultTransport := Some "ws";
       rpc := Some (new_tunnel (VStr "http://two") VUndefined);
       listeners := ∅; own := [] |} ].

End Examples.

Import Template Emitted Runtime Entry Props Examples.

(** Settle a closed decidable statement by evaluation. *)
Ltac by_compute :=
  match goal with
  | |- ?P => apply (bool_decide_unpack P); vm_compute; exact I
  end.

(** ** Heap and tunnel lemmas *)

Lemma heap_lookup_insert (h : heap) (l : loc) (i j : instance) :
  h !! l = Some i → <[l := j]> h !! l = Some j.
Proof.
  intros Hl. apply list_lookup_insert_eq. by eapply lookup_lt_Some.
Qed.

Lemma calls_insert (h : heap) (l : loc) (i j : instance) :
  h !! l = Some i →
  calls (<[l := j]> h) l = match rpc j with Some t => t_calls t | None => [] end.
Proof.
  intros Hl. unfold calls. by rewrite (heap_lookup_insert h l i j Hl).
Qed.

Lemma rpc_send_ok (h : heap) (l : loc) (i : instance) (t : tunnel) (c : rpc_call) :
  h !! l = Some i → rpc i = Some t →
  rpc_send l c h = Ok (<[l := set_rpc (log_call c t) i]> h).
Proof. intros Hl Ht. unfold rpc_send. by rewrite Hl, Ht. Qed.

(** ** The constructor guard *)

Lemma guard_false (h : heap) (this : jsval) : guard h this = false.
Proof. reflexivity. Qed.

Lemma new_Proxy_fuel (fuel : nat) (cls : node) (url ssl : jsval) (h : heap) :
  new_Proxy fuel cls url ssl h = new_Proxy 0 cls url ssl h.
Proof. destruct fuel; reflexivity. Qed.

(** The test the guard was meant to make, [!(this instanceof Proxy)],
    does tell a call without [new] apart. *)
Lemma intended_guard_differs (h : heap) :
  negb (instanceOf h VUndefined) = true ∧ guard h VUndefined = false.
Proof. done. Qed.

(** C10: the condition [!this instanceof Proxy] of the constructor's
    first [if] negates [this] first and asks whether the resulting boolean
    is an instance, so it is false for every receiver on every heap; the
    branch returning [new Proxy(url)] is never taken: the constructor's
    result does not depend on what that branch would do, and [new] needs
    no nesting budget. *)
Theorem guard_never_fires (h : heap) (this : jsval) :
  guard h this = instanceOf h (VBool (negb (truthy this)))
  ∧ guard h this = false
  ∧ (∀ new1 new2 cls url ssl,
       Proxy_call new1 cls this url ssl h = Proxy_call new2 cls this url ssl h)
  ∧ (∀ fuel cls url ssl,
       new_Proxy fuel cls url ssl h = new_Proxy 0 cls url ssl h).
Proof.
  split; [reflexivity|]. split; [apply guard_false|]. split.
  - intros. unfold Proxy_call. by rewrite guard_false.
  - intros. apply new_Proxy_fuel.
Qed.

(** ** Construction *)

Lemma invalid_url_spec (url : jsval) :
  invalid_url url = negb (nonempty_string url).
Proof. destruct url as [| |b|n|s|f|id|id|l]; try reflexivity.
  - by destruct b.
  - unfold invalid_url; simpl. by destruct (n =? 0).
  - unfold invalid_url; simpl. by destruct (String.eqb s "").
Qed.

Lemma new_Proxy_eq (fuel : nat) (cls : node) (url ssl : jsval) (h : heap) :
  new_Proxy fuel cls url ssl h
  = if nonempty_string url
    then Some (Ok (length h, h ++ [constructed cls (length h) url ssl]))
    else Some (Throw (JsError "Invalid proxy URL")).
Proof.
  rewrite new_Proxy_fuel. unfold new_Proxy, Proxy_call.
  change (guard (h ++ [blank]) (VRef (length h))) with false. cbv iota.
  rewrite invalid_url_spec.
  destruct (nonempty_string url); simpl; [|done].
  rewrite lookup_app_r by lia. rewrite Nat.sub_diag. simpl.
  rewrite insert_app_r_alt by lia. rewrite Nat.sub_diag. done.
Qed.

(** A new instance has a tunnel that has made no call yet. *)
Lemma new_Proxy_tunnel (fuel : nat) (cls : node) (url ssl : jsval)
  (h h' : heap) (self : loc) :
  new_Proxy fuel cls url ssl h = Some (Ok (self, h')) →
  ∃ i, h' !! self = Some i
       ∧ rpc i = Some (new_tunnel url ssl)
       ∧ defaultTransport i = Some "http"
       ∧ calls h' self = [].
Proof.
  rewrite new_Proxy_eq. destruct (nonempty_string url); [|done].
  intros [= <- <-]. exists (constructed cls (length h) url ssl).
  unfold calls. rewrite lookup_app_r by lia. rewrite Nat.sub_diag. done.
Qed.


(** ** Method stubs *)

Lemma truncate_take (n : nat) (args : list jsval) :
  truncate n args = take n args.
Proof.
  unfold truncate. destruct (0 <? n)%nat eqn:Hn.
  - destruct (Nat.min_spec n (length args)) as [[? ->]|[? ->]]; [done|].
    rewrite firstn_all. symmetry. by apply take_ge.
  - apply Nat.ltb_ge in Hn. by replace n with 0%nat by lia.
Qed.

Lemma removelast_prefix (l : list jsval) : removelast l `prefix_of` l.
Proof.
  destruct l as [|x l']; [done|].
  exists [List.last (x :: l') VUndefined].
  by apply app_removelast_last.
Qed.

Lemma split_callback_prefix (args : list jsval) :
  (split_callback args).1 `prefix_of` args.
Proof.
  unfold split_callback. destruct (last args) as [v|]; [|done].
  destruct (String.eqb (typeof v) "function"); [|done].
  apply removelast_prefix.
Qed.

Lemma stub_request_transport (m : string) (n : nat) (er : bool)
  (tr : option string) (args : list jsval) :
  c_transport (stub_request m n er tr args) = tr.
Proof. unfold stub_request. by destruct (split_callback args). Qed.

(** A stub called on an instance with a tunnel sends one request and
    returns. *)
Lemma stub_call_sends (m : string) (n : nat) (er : bool) (args : list jsval)
  (h : heap) (l : loc) (i : instance) (t : tunnel) :
  h !! l = Some i → rpc i = Some t →
  call_func (FStub m n er) (VRef l) args h
  = Some (Ok (VUndefined,
              <[l := set_rpc (log_call (stub_request m n er (defaultTransport i)
                                          args) t) i]> h)).
Proof.
  intros Hl Ht. simpl. unfold stub_call. rewrite Hl.
  by rewrite (rpc_send_ok h l i t _ Hl Ht).
Qed.

(** A stub none of whose formal parameters is called [arguments], [Array]
    or [Math], generated for a method with [n] declared parameters and
    called on an instance with any argument list, hands the tunnel one
    request in which: the callback is the last argument when that argument
    is a function (and [null] otherwise); the parameters are the first [n]
    of the remaining arguments, so the callback is never counted or passed
    as a parameter; nothing is appended, the parameters being a prefix of
    the arguments of length at most [n]. *)
Lemma stub_arguments (name : string) (def : MethodDef) (args : list jsval)
  (h : heap) (l : loc) (i : instance) (t : tunnel) :
  h !! l = Some i → rpc i = Some t →
  shadowing (printArgs def) = false →
  let n := length (params def) in
  let er := truthy_string (returns def) || async def in
  let callable :=
    match last args with
    | Some v => String.eqb (typeof v) "function"
    | None => false
    end in
  let positional := if callable then removelast args else args in
  generateMethod name def = EMethod name (printArgs def) er
  ∧ stub_of name def = FStub name n er
  ∧ ∃ h' c,
      call_func (stub_of name def) (VRef l) args h = Some (Ok (VUndefined, h'))
      ∧ calls h' l = t_calls t ++ [c]
      ∧ c_method c = name
      ∧ c_expectReturn c = Some er
      ∧ c_transport c = defaultTransport i
      ∧ c_callback c = (if callable then default VNull (last args) else VNull)
      ∧ c_params c = take n positional
      ∧ (length (c_params c) ≤ n)%nat
      ∧ c_params c `prefix_of` args.
Proof.
  intros Hl Ht Hsh n er callable positional. split; [reflexivity|].
  assert (Hstub : stub_of name def = FStub name n er).
  { unfold stub_of, stub_fn. rewrite Hsh. unfold printArgs, n.
    by rewrite length_map. }
  split; [done|]. rewrite Hstub.
  set (c := stub_request name n er (defaultTransport i) args).
  exists (<[l := set_rpc (log_call c t) i]> h), c.
  assert (Hsplit : split_callback args
                   = (positional, if callable then default VNull (last args)
                                  else VNull)).
  { unfold split_callback, positional, callable.
    destruct (last args) as [v|]; [|done].
    by destruct (String.eqb (typeof v) "function"). }
  assert (Hparams : c_params c = take n positional).
  { unfold c, stub_request. rewrite Hsplit. simpl. apply truncate_take. }
  split.
  { by apply stub_call_sends. }
  split. { by rewrite (calls_insert h l i _ Hl). }
  split. { unfold c, stub_request. by destruct (split_callback args). }
  split. { unfold c, stub_request. by destruct (split_callback args). }
  split. { apply stub_request_transport. }
  split. { unfold c, stub_request. by rewrite Hsplit. }
  split; [done|]. rewrite Hparams. split.
  - rewrite length_take. lia.
  - etrans; [apply prefix_take|].
    pose proof (split_callback_prefix args) as Hp. by rewrite Hsplit in Hp.
Qed.

Lemma stub_arguments_sum :
  ∃ h' c,
    call_func (FStub "sum" 2 true) (VRef 0%nat)
              [VNum 1; VNum 2; VNum 3; VUserFun 7] one_proxy
    = Some (Ok (VUndefined, h'))
    ∧ calls h' 0%nat = [c]
    ∧ c_callback c = VUserFun 7 ∧ c_params c = [VNum 1; VNum 2].
Proof.
  destruct (stub_arguments "sum"
              {| params := [ {| p_name := "a" |}; {| p_name := "b" |} ];
                 returns := Some "int"; async := false |}
              [VNum 1; VNum 2; VNum 3; VUserFun 7]
              one_proxy 0%nat _ _ eq_refl eq_refl eq_refl)
    as (_ & _ & h' & c & Hcall & Hcalls & _ & _ & _ & Hcb & Hps & _).
  exists h', c. split; [exact Hcall|]. split; [exact Hcalls|].
  split; [exact Hcb|exact Hps].
Defined.

(** The characters of a string are strings: none is taken for the
    callback. *)
Lemma split_callback_characters (s : string) :
  split_callback (characters s) = (characters s, VNull).
Proof.
  unfold split_callback, characters. rewrite fmap_last.
  by destruct (last (list_ascii_of_string s)).
Qed.

(** C2, on a method with the parameters [path] and [arguments]: the
    template writes the parameter names as the formals of the stub, so in
    its body [arguments] is the second argument and not the argument list.
    Called with a string in that place, the stub sends the characters of the
    string, cut to two, as the parameters, and a callable last argument is
    neither taken as the callback nor kept out of anything: the callback is
    [null].  The same call on the stub of a method whose second parameter is
    called [options] sends the two arguments and takes the callback. *)
Theorem stub_formal_shadows_arguments :
  generateMethod "list"
    {| params := [ {| p_name := "path" |}; {| p_name := "arguments" |} ];
       returns := None; async := false |}
  = EMethod "list" ["path"; "arguments"] false
  ∧ ∃ cls h i f,
      load "Proxy" shadowed = Some cls
      ∧ new_Proxy 0 cls (VStr "http://host") VUndefined []
        = Some (Ok (0%nat, h))
      ∧ h !! 0%nat = Some i
      ∧ member_value cls i "list" = Some (fn f)
      ∧ (∀ (a : jsval) (s : string) (id : nat), ∃ h' c,
           call_func f (VRef 0%nat) [a; VStr s; VUserFun id] h
           = Some (Ok (VUndefined, h'))
           ∧ calls h' 0%nat = [c]
           ∧ c_method c = "list"
           ∧ c_callback c = VNull
           ∧ c_params c = take 2 (characters s))
      ∧ ∃ h' c,
          invoke cls 0%nat "list" [VStr "ls"; VStr "xy"; VUserFun 7] h
          = Some (Ok (VUndefined, h'))
          ∧ calls h' 0%nat = [c]
          ∧ c_callback c = VNull
          ∧ c_params c = [VStr "x"; VStr "y"]
          ∧ c_callback c ≠ VUserFun 7
          ∧ ¬ c_params c `prefix_of` [VStr "ls"; VStr "xy"; VUserFun 7]
          ∧ ∃ h'' c',
              call_func (stub_fn "list" ["path"; "options"] false)
                        (VRef 0%nat) [VStr "ls"; VStr "xy"; VUserFun 7] h
              = Some (Ok (VUndefined, h''))
              ∧ calls h'' 0%nat = [c']
              ∧ c_callback c' = VUserFun 7
              ∧ c_params c' = [VStr "ls"; VStr "xy"].
Proof.
  split; [reflexivity|].
  eexists _, _, _, _. split; [by vm_compute|]. split; [by vm_compute|].
  split; [by vm_compute|]. split; [by vm_compute|]. split.
  - intros a s id. cbn [call_func]. unfold shadowing_stub_call.
    unfold shadowing_stub_request, sliced_arguments.
    change (formal_value "Array" ["path"; "arguments"]
              [a; VStr s; VUserFun id]) with (@None jsval).
    change (formal_value "arguments" ["path"; "arguments"]
              [a; VStr s; VUserFun id]) with (Some (VStr s)).
    cbn [slice_call]. fold (characters s).
    rewrite split_callback_characters. unfold truncated.
    change (formal_value "Math" ["path"; "arguments"]
              [a; VStr s; VUserFun id]) with (@None jsval).
    cbv iota. rewrite truncate_take.
    eexists _, _. split; [reflexivity|]. done.
  - eexists _, _. split; [by vm_compute|]. split; [by vm_compute|].
    split; [by vm_compute|]. split; [by vm_compute|]. split; [done|].
    split; [by intros [k [=]]|].
    eexists _, _. split; [by vm_compute|]. by vm_compute.
Qed.

(** ** Listener management *)




(** C6: on an instance with a tunnel, [removeAllListeners(name)] makes
    exactly one tunnel call, [{method: 'rpc.off', params: [name],
    transport: 'ws'}], however many listeners the name has, none included,
    and leaves the name without listeners. *)
Theorem removeAllListeners_always_unsubscribes (h : heap) (l : loc)
  (i : instance) (t : tunnel) (type : string) :
  h !! l = Some i → rpc i = Some t →
  lookup_prop "removeAllListeners" template_prototype
  = Some (fn (FMember RemoveAllListeners))
  ∧ call_func (FMember RemoveAllListeners) (VRef l) [VStr type] h
    = removeAllListeners l type h
  ∧ ∃ h' i',
      removeAllListeners l type h = Some (Ok (VUndefined, h'))
      ∧ h' !! l = Some i'
      ∧ listeners_of i' type = []
      ∧ calls h' l
        = t_calls t
          ++ [ {| c_method := "rpc.off"; c_params := [VStr type];
                  c_expectReturn := None; c_transport := Some "ws";
                  c_callback := VUndefined |} ].
Proof.
  intros Hl Ht. do 2 (split; [reflexivity|]).
  unfold removeAllListeners. rewrite Hl. simpl.
  set (i1 := EventEmitter_removeAllListeners type i).
  assert (Hl1 : <[l := i1]> h !! l = Some i1) by by eapply heap_lookup_insert.
  rewrite (rpc_send_ok _ l i1 t _ Hl1 Ht).
  eexists _, _. split; [reflexivity|].
  split. { by eapply heap_lookup_insert. }
  split. { unfold listeners_of. simpl. by rewrite lookup_delete_eq. }
  by erewrite calls_insert by done.
Qed.

Lemma removeAllListeners_always_unsubscribes_witness :
  listeners_of (default blank (one_proxy !! 0%nat)) "progress" = []
  ∧ ∃ h',
      removeAllListeners 0%nat "progress" one_proxy
      = Some (Ok (VUndefined, h'))
      ∧ calls h' 0%nat = [control "rpc.off" "progress"].
Proof.
  split; [reflexivity|].
  destruct (removeAllListeners_always_unsubscribes one_proxy
              0%nat _ _ "progress" eq_refl eq_refl)
    as (_ & _ & h' & i' & Hrm & _ & _ & Hcalls).
  exists h'. split; [exact Hrm|exact Hcalls].
Defined.

(** ** The sample service, end to end *)

(** For the enum [Mode = {A: 0, B: 1}] and the method [vray.start]: the
    class loads with a frozen accessor carrying [A] and [B]; the accessor
    converts both ways; and on a new instance [t.vray.start(cb)] hands the
    tunnel one request for [vray.start], without parameters, expecting a
    return, on the default transport, with [cb] as the callback. *)
Example scenario_end_to_end :
  ∃ cls h i top f h',
    load "Tester" scenario = Some cls
    ∧ accessor cls "Mode"
      = NObj (Some (FEnum [("A", 0); ("B", 1)]))
             [("A", NNum 0); ("B", NNum 1)] true
    ∧ enum_call [("A", 0); ("B", 1)] (VStr "A") = VNum 0
    ∧ enum_call [("A", 0); ("B", 1)] (VNum 0) = VStr "A"
    ∧ new_Proxy 0 cls (VStr "http://host") VUndefined [] = Some (Ok (0%nat, h))
    ∧ h !! 0%nat = Some i
    ∧ member_value cls i "vray" = Some top
    ∧ reach top ["start"] = NObj (Some f) [] false
    ∧ call_func f (VObject 0) [VUserFun 1] h = Some (Ok (VUndefined, h'))
    ∧ calls h' 0%nat
      = [ {| c_method := "vray.start"; c_params := [];
             c_expectReturn := Some true; c_transport := Some "http";
             c_callback := VUserFun 1 |} ].
Proof.
  eexists _, _, _, _, _, _. split; [by vm_compute|].
  split; [by vm_compute|]. split; [by vm_compute|]. split; [by vm_compute|].
  split; [by vm_compute|]. split; [by vm_compute|]. split; [by vm_compute|].
  split; [by vm_compute|]. split; by vm_compute.
Qed.

(** ** The compiler entry point *)

(** C7: when [fs.stat] finds no template for the requested language, the
    promise is rejected with that error and [ejs.renderFile] is never
    consulted, so no text is produced; whenever the template is there and
    the renderer produces a text, the promise resolves with exactly that
    text. *)
Theorem unsupported_language_rejects :
  (∀ stat renderFile o err,
     stat (proxyScript o) = Some err →
     getLanguageProxy stat renderFile o = StatError err
     ∧ ∀ renderFile', getLanguageProxy stat renderFile' o = StatError err)
  ∧ (∀ stat renderFile o html,
       stat (proxyScript o) = None →
       renderFile (proxyScript o) (serviceInstance o) (localName_or_default o)
       = inr html →
       getLanguageProxy stat renderFile o = Resolved html).
Proof.
  split.
  - intros stat renderFile o err Hstat. unfold getLanguageProxy.
    by rewrite Hstat.
  - intros stat renderFile o html Hstat Hrender. unfold getLanguageProxy.
    by rewrite Hstat, Hrender.
Qed.

Lemma unsupported_language_rejects_witness :
  getLanguageProxy host_stat host_renderFile
    {| serviceInstance := scenario; language := "Cobol"; localName := None |}
  = StatError "ENOENT"
  ∧ getLanguageProxy host_stat host_renderFile
      {| serviceInstance := scenario; language := "JavaScript";
         localName := Some "Tester" |}
    = Resolved "var Tester = exports.Tester".
Proof.
  split.
  - apply (proj1 unsupported_language_rejects host_stat host_renderFile
             {| serviceInstance := scenario; language := "Cobol";
                localName := None |} "ENOENT").
    reflexivity.
  - apply (proj2 unsupported_language_rejects host_stat host_renderFile
             {| serviceInstance := scenario; language := "JavaScript";
                localName := Some "Tester" |}); reflexivity.
Defined.

(** ** Calling an enum accessor *)

Lemma switch_app_miss (cs1 cs2 : list (jsval * jsval)) (val : jsval) :
  Forall (fun c => case_matches (fst c) val = false) cs1 →
  switch (cs1 ++ cs2) val = switch cs2 val.
Proof.
  induction 1 as [|[lbl r] cs1 Hc _ IH]; [done|].
  simpl in *. by rewrite Hc.
Qed.

(** Called with a label, the accessor returns the label's value. *)
Lemma enum_call_label (struct : list (string * Z)) (k : string) (v : Z) :
  NoDup (map fst struct) → (k, v) ∈ struct →
  enum_call struct (VStr k) = VNum v.
Proof.
  intros Hnd Hin. unfold enum_call, enum_cases.
  induction struct as [|[k' v'] struct IH]; [by apply elem_of_nil in Hin|].
  simpl in *. apply NoDup_cons in Hnd as [Hk' Hnd].
  apply elem_of_cons in Hin as [Heq|Hin].
  - injection Heq as -> ->. by rewrite String.eqb_refl.
  - destruct (String.eqb k' k) eqn:Hkk.
    + apply String.eqb_eq in Hkk as ->. exfalso. apply Hk'.
      apply list_elem_of_fmap. by exists (k, v).
    + rewrite <- (IH Hnd Hin). clear.
      generalize (map (λ kv : string * Z, (VStr kv.1, VNum kv.2)) struct).
      intros cs. induction cs as [|[l r] cs IHcs]; simpl; [done|].
      by rewrite IHcs.
Qed.

(** Called with a value, the accessor returns the value's label, provided
    no two labels share a value. *)
Lemma enum_call_value (struct : list (string * Z)) (k : string) (v : Z) :
  NoDup (map snd struct) → (k, v) ∈ struct →
  enum_call struct (VNum v) = VStr k.
Proof.
  intros Hnd Hin. unfold enum_call, enum_cases.
  rewrite switch_app_miss by (apply Forall_map; by apply Forall_true).
  induction struct as [|[k' v'] struct IH]; [by apply elem_of_nil in Hin|].
  simpl in *. apply NoDup_cons in Hnd as [Hv' Hnd].
  apply elem_of_cons in Hin as [Heq|Hin].
  - injection Heq as -> ->. by rewrite Z.eqb_refl.
  - destruct (v' =? v) eqn:Hvv; [|by apply IH].
    apply Z.eqb_eq in Hvv as ->. exfalso. apply Hv'.
    apply list_elem_of_fmap. by exists (k, v).
Qed.

(** ** Namespace stubs *)

Lemma last_index_lt (c : ascii) (s : string) (i : nat) :
  last_index c s = Some i → (i < String.length s)%nat.
Proof.
  revert i. induction s as [|a s IH]; intros i; simpl; [done|].
  destruct (last_index c s) as [j|].
  - intros [= <-]. specialize (IH j eq_refl). lia.
  - destruct (Ascii.eqb a c); [|done]. intros [= <-]. lia.
Qed.

Lemma length_substring_0 (n : nat) (s : string) :
  (n ≤ String.length s)%nat → String.length (String.substring 0 n s) = n.
Proof.
  revert s. induction n as [|n IH]; intros s Hn.
  - by destruct s.
  - destruct s as [|a s]; simpl in *; [lia|]. rewrite IH; lia.
Qed.

Lemma parent_shorter (s p : string) :
  parent s = Some p → (String.length p < String.length s)%nat.
Proof.
  unfold parent, lastIndexOf, substr.
  destruct (last_index "." s) as [i|] eqn:Hi; [|done].
  pose proof (last_index_lt _ _ _ Hi).
  destruct (Z.of_nat i =? -1) eqn:Hz; [done|]. intros [= <-].
  rewrite Nat2Z.id. change (Z.to_nat 0) with 0%nat.
  rewrite length_substring_0; lia.
Qed.

(** One call of [stubNamespace], with the recursive call named by
    [parent]; the budget does not matter once it covers the name. *)
Lemma stubNamespace_fuel_eq (fuel : nat) (ns : string) (st : gen) :
  (String.length ns ≤ fuel)%nat →
  stubNamespace_fuel fuel ns st
  = let st1 := match parent ns with
               | Some p => stubNamespace p st
               | None => st
               end in
    if stubs_truthy (stubs st1) ns then st1
    else {| stubs := <[ns := 1]> (stubs st1);
            out := out st1 ++ [ENamespace ns] |}.
Proof.
  revert ns st.
  induction fuel as [fuel IH] using lt_wf_ind. intros ns st Hfuel.
  assert (Hinner : match parent ns with
                   | Some p => stubNamespace p st
                   | None => st
                   end
                   = if lastIndexOf ns "." =? -1 then st
                     else match fuel with
                          | S fuel' =>
                              stubNamespace_fuel fuel'
                                (substr ns 0 (lastIndexOf ns ".")) st
                          | O => st
                          end).
  { destruct (parent ns) as [p|] eqn:Hp.
    - pose proof (parent_shorter _ _ Hp) as Hlt. unfold parent in Hp.
      destruct (lastIndexOf ns "." =? -1); [done|]. injection Hp as Hp.
      rewrite Hp. destruct fuel as [|fuel']; [lia|].
      unfold stubNamespace.
      rewrite (IH fuel') by lia.
      rewrite (IH (String.length p)) by lia. done.
    - unfold parent in Hp. by destruct (lastIndexOf ns "." =? -1). }
  destruct fuel; simpl; by rewrite Hinner.
Qed.

Lemma stubNamespace_eq (ns : string) (st : gen) :
  stubNamespace ns st
  = let st1 := match parent ns with
               | Some p => stubNamespace p st
               | None => st
               end in
    if stubs_truthy (stubs st1) ns then st1
    else {| stubs := <[ns := 1]> (stubs st1);
            out := out st1 ++ [ENamespace ns] |}.
Proof. by apply stubNamespace_fuel_eq. Qed.

Lemma before_app_r {A} (a b : A) (l l' : list A) :
  before a b l → before a b (l ++ l').
Proof.
  intros (l1 & l2 & l3 & ->). exists l1, l2, (l3 ++ l').
  rewrite <- ?app_assoc. simpl. by rewrite <- ?app_assoc.
Qed.


Lemma before_snoc {A} (a b : A) (l : list A) :
  a ∈ l → before a b (l ++ [b]).
Proof.
  intros (l1 & l2 & ->)%list_elem_of_split. exists l1, l2, [].
  by rewrite <- ?app_assoc.
Qed.

Lemma stubs_truthy_covered (st : gen) (p : string) :
  stubs_inv st → stubs_truthy (stubs st) p = true ↔ covered st p.
Proof.
  intros Hinv. unfold stubs_truthy, covered.
  destruct (stubs st !! p) as [v|] eqn:Hp.
  - rewrite (inv_one st Hinv p v Hp). simpl. split; [intros _|done].
    right. apply (inv_own st Hinv). by rewrite Hp.
  - rewrite bool_decide_eq_true. split; [by left|]. intros [?|Hin]; [done|].
    apply (inv_own st Hinv) in Hin. rewrite Hp in Hin. by destruct Hin.
Qed.

Lemma empty_gen_inv : stubs_inv empty_gen.
Proof.
  split; simpl.
  - intros p. rewrite lookup_empty. split.
    + by intros [? ?].
    + by intros ?%elem_of_nil.
  - intros p v. by rewrite lookup_empty.
  - constructor.
  - intros p q ?%elem_of_nil. done.
Qed.

(** A call of [stubNamespace] keeps the invariant, only appends to the
    output, and leaves its argument dealt with. *)
Lemma stubNamespace_inv (ns : string) (st : gen) :
  stubs_inv st →
  stubs_inv (stubNamespace ns st)
  ∧ (∃ l, out (stubNamespace ns st) = out st ++ l)
  ∧ covered (stubNamespace ns st) ns.
Proof.
  remember (String.length ns) as n eqn:Hn. revert ns Hn st.
  induction n as [n IH] using lt_wf_ind. intros ns -> st Hinv.
  rewrite stubNamespace_eq.
  set (st1 := match parent ns with
              | Some p => stubNamespace p st
              | None => st
              end).
  assert (H1 : stubs_inv st1 ∧ (∃ l, out st1 = out st ++ l)
               ∧ ∀ p, parent ns = Some p → covered st1 p).
  { unfold st1. destruct (parent ns) as [p|] eqn:Hp.
    - destruct (IH _ (parent_shorter _ _ Hp) p eq_refl st Hinv)
        as (? & ? & ?).
      split; [done|]. split; [done|]. by intros ? [= <-].
    - split; [done|]. split; [by exists []; rewrite app_nil_r|done]. }
  destruct H1 as (Hinv1 & [l Hl] & Hpar). simpl.
  destruct (stubs_truthy (stubs st1) ns) eqn:Htr.
  { split; [done|]. split; [by exists l|].
    by apply stubs_truthy_covered. }
  assert (Hnc : ¬ covered st1 ns).
  { rewrite <- stubs_truthy_covered by done. by rewrite Htr. }
  assert (Hnin : ENamespace ns ∉ out st1) by (intros ?; apply Hnc; by right).
  split; [|split].
  - split; simpl.
    + intros p. rewrite elem_of_app, list_elem_of_singleton.
      destruct (decide (ns = p)) as [->|Hne].
      * rewrite lookup_insert_eq. split; [by right|by eexists].
      * rewrite lookup_insert_ne by done. rewrite (inv_own st1 Hinv1).
        split; [by left|]. intros [?|[= ?]]; done.
    + intros p v. destruct (decide (ns = p)) as [->|Hne].
      * rewrite lookup_insert_eq. by intros [= <-].
      * rewrite lookup_insert_ne by done. apply (inv_one st1 Hinv1).
    + apply NoDup_app. split; [apply (inv_nodup st1 Hinv1)|].
      split; [|apply NoDup_singleton].
      intros x Hx ->%list_elem_of_singleton. done.
    + intros p q. rewrite elem_of_app, list_elem_of_singleton.
      intros [Hin|[= ->]] Hq.
      * destruct (inv_parent st1 Hinv1 p q Hin Hq) as [?|?]; [by left|].
        right. by apply before_app_r.
      * destruct (Hpar q Hq) as [?|?]; [by left|].
        right. by apply before_snoc.
  - exists (l ++ [ENamespace ns]). simpl. by rewrite Hl, app_assoc.
  - right. simpl. apply elem_of_app. right. by apply list_elem_of_singleton.
Qed.

Lemma covered_mono (st st' : gen) (p : string) :
  (∃ l, out st' = out st ++ l) → covered st p → covered st' p.
Proof.
  intros [l Hl] [?|Hin]; [by left|]. right. rewrite Hl.
  apply elem_of_app. by left.
Qed.

(** [namespaces.forEach(stubNamespace)] deals with every listed name. *)
Lemma forEach_stubNamespace_inv (nss : list string) (st : gen) :
  stubs_inv st →
  let st' := foldl (fun st ns => stubNamespace ns st) st nss in
  stubs_inv st'
  ∧ (∃ l, out st' = out st ++ l)
  ∧ ∀ ns, ns ∈ nss → covered st' ns.
Proof.
  revert st. induction nss as [|ns nss IH]; intros st Hinv; simpl.
  - split; [done|]. split; [by exists []; rewrite app_nil_r|].
    by intros ns ?%elem_of_nil.
  - destruct (stubNamespace_inv ns st Hinv) as (Hinv1 & [l1 Hl1] & Hc1).
    destruct (IH _ Hinv1) as (Hinv2 & [l2 Hl2] & Hc2).
    split; [done|]. split.
    { exists (l1 ++ l2). by rewrite Hl2, Hl1, app_assoc. }
    intros ns' [->|Hin]%elem_of_cons; [|by apply Hc2].
    eapply covered_mono; [|exact Hc1]. by exists l2.
Qed.

Lemma collect_mono (acc : list string) (m x : string) :
  x ∈ acc → x ∈ collect acc m.
Proof.
  intros Hx. unfold collect. destruct (lastIndexOf m "." =? -1); [done|].
  case_bool_decide; [done|]. apply elem_of_app. by left.
Qed.

Lemma collect_parent (acc : list string) (m p : string) :
  parent m = Some p → p ∈ collect acc m.
Proof.
  unfold parent, collect. destruct (lastIndexOf m "." =? -1); [done|].
  intros [= <-]. case_bool_decide; [done|].
  apply elem_of_app. right. by apply list_elem_of_singleton.
Qed.

Lemma foldl_collect_mono (ms acc : list string) (x : string) :
  x ∈ acc → x ∈ foldl collect acc ms.
Proof.
  revert acc. induction ms as [|m ms IH]; intros acc Hx; simpl; [done|].
  apply IH. by apply collect_mono.
Qed.

(** The parent of every method name is collected into [namespaces]. *)
Lemma namespaces_parent (md : Metadata) (m p : string) :
  m ∈ map fst (methods md) → parent m = Some p → p ∈ namespaces md.
Proof.
  unfold namespaces. generalize (map fst (methods md)) (@nil string).
  intros ms. induction ms as [|m' ms IH]; intros acc Hm Hp; simpl.
  - by apply elem_of_nil in Hm.
  - apply elem_of_cons in Hm as [->|Hm]; [|by apply IH].
    apply foldl_collect_mono. by apply collect_parent.
Qed.

Lemma Object_prototype_keys_top (p : string) :
  p ∈ Object_prototype_keys → parent p = None.
Proof.
  unfold Object_prototype_keys. rewrite !elem_of_cons, elem_of_nil.
  intros H. repeat (destruct H as [->|H]; [reflexivity|]). done.
Qed.

Lemma covered_parent (st : gen) (p q : string) :
  stubs_inv st → covered st p → parent p = Some q → covered st q.
Proof.
  intros Hinv [Hp|Hp] Hq.
  - by rewrite (Object_prototype_keys_top p Hp) in Hq.
  - destruct (inv_parent st Hinv p q Hp Hq) as [?|(l1 & l2 & l3 & Hl)];
      [by left|].
    right. rewrite Hl. apply elem_of_app. right. by apply elem_of_cons; left.
Qed.




Lemma generateTypes_no_namespace (md : Metadata) (p : string) :
  ENamespace p ∉ generateTypes md.
Proof.
  unfold generateTypes. induction (types md) as [|[key t] ts IH]; simpl.
  - by intros ?%elem_of_nil.
  - intros [Hin|Hin]%elem_of_app; [|done].
    destruct t as [name struct|name fields]; simpl in Hin;
      [|by apply elem_of_nil in Hin].
    apply elem_of_cons in Hin as [?|Hin]; [done|].
    apply elem_of_app in Hin as [Hin|Hin].
    + apply list_elem_of_fmap in Hin as (? & ? & ?). done.
    + by apply list_elem_of_singleton in Hin.
Qed.

Lemma generateMethods_no_namespace (md : Metadata) (p : string) :
  ENamespace p ∉ generateMethods md.
Proof.
  unfold generateMethods, generateMethod.
  intros (? & ? & ?)%list_elem_of_fmap. done.
Qed.

(** ** Property lists *)

Lemma lookup_set_prop_eq (k : string) (v : node) (ps : list (string * node)) :
  lookup_prop k (set_prop k v ps) = Some v.
Proof.
  induction ps as [|[k' v'] ps IH]; simpl.
  - by rewrite String.eqb_refl.
  - destruct (String.eqb k k') eqn:Hk; simpl.
    + by rewrite String.eqb_refl.
    + by rewrite Hk.
Qed.

Lemma lookup_set_prop_ne (k k' : string) (v : node)
  (ps : list (string * node)) :
  k ≠ k' → lookup_prop k' (set_prop k v ps) = lookup_prop k' ps.
Proof.
  intros Hne. induction ps as [|[k0 v0] ps IH]; simpl.
  - apply not_eq_sym, String.eqb_neq in Hne. by rewrite Hne.
  - destruct (String.eqb k k0) eqn:Hk; simpl.
    + apply String.eqb_eq in Hk as <-.
      apply not_eq_sym, String.eqb_neq in Hne. by rewrite Hne.
    + by rewrite IH.
Qed.

Lemma lookup_prop_elem (k : string) (v : node) (ps : list (string * node)) :
  lookup_prop k ps = Some v → (k, v) ∈ ps.
Proof.
  induction ps as [|[k' v'] ps IH]; simpl; [done|].
  destruct (String.eqb k k') eqn:Hk.
  - apply String.eqb_eq in Hk as <-. intros [= <-]. by apply elem_of_cons; left.
  - intros ?. apply elem_of_cons; right. by apply IH.
Qed.

Lemma set_prop_keys (k : string) (v : node) (ps : list (string * node)) :
  map fst (set_prop k v ps)
  = if bool_decide (k ∈ map fst ps) then map fst ps else map fst ps ++ [k].
Proof.
  induction ps as [|[k' v'] ps IH]; simpl; [done|].
  destruct (String.eqb k k') eqn:Hk; simpl.
  - apply String.eqb_eq in Hk as <-.
    rewrite bool_decide_eq_true_2; [done|]. by apply elem_of_cons; left.
  - apply String.eqb_neq in Hk. rewrite IH.
    destruct (bool_decide (k ∈ map fst ps)) eqn:Hin.
    + apply bool_decide_eq_true in Hin.
      rewrite bool_decide_eq_true_2; [done|]. by apply elem_of_cons; right.
    + apply bool_decide_eq_false in Hin.
      rewrite bool_decide_eq_false_2; [done|].
      by intros [?|?]%elem_of_cons.
Qed.

Lemma set_prop_NoDup (k : string) (v : node) (ps : list (string * node)) :
  NoDup (map fst ps) → NoDup (map fst (set_prop k v ps)).
Proof.
  intros Hnd. rewrite set_prop_keys. case_bool_decide; [done|].
  apply NoDup_app. split; [done|]. split; [|apply NoDup_singleton].
  by intros x Hx ->%list_elem_of_singleton.
Qed.

Lemma set_prop_Forall (P : string * node → Prop) (k : string) (v : node)
  (ps : list (string * node)) :
  P (k, v) → Forall P ps → Forall P (set_prop k v ps).
Proof.
  intros Hv. induction 1 as [|[k' v'] ps Hx Hps IH]; simpl.
  - by repeat constructor.
  - destruct (String.eqb k k'); by constructor.
Qed.

(** ** Stores built by the emitted source are well formed *)

Lemma wf_props (c : option func) (ps : list (string * node)) (fr : bool)
  (k : string) (v : node) :
  wf (NObj c ps fr) → lookup_prop k ps = Some v → wf v.
Proof.
  intros Hwf Hk. inversion Hwf as [| | | |c' ps' fr' _ _ Hall]; subst.
  apply lookup_prop_elem in Hk.
  by apply (proj1 (Forall_forall _ _) Hall (k, v)).
Qed.

Lemma wf_set_prop (c : option func) (ps : list (string * node)) (fr : bool)
  (k : string) (v : node) :
  wf (NObj c ps fr) → wf v → wf (NObj c (set_prop k v ps) fr).
Proof.
  intros Hwf Hv. inversion Hwf as [| | | |c' ps' fr' Hnd Hc Hall]; subst.
  constructor; [by apply set_prop_NoDup|done|by apply set_prop_Forall].
Qed.

Lemma put_wf (k : string) (v o o' : node) :
  wf v → wf o → put k v o = Some o' → wf o'.
Proof.
  intros Hv Ho. unfold put. destruct (String.eqb k "__proto__"); [done|].
  destruct o as [| | | |c ps fr]; try (by intros [= <-]); try done.
  destruct fr; [by intros [= <-]|].
  case_bool_decide; intros [= <-]; [done|]. by apply wf_set_prop.
Qed.

Lemma freeze_wf (o : node) : wf o → wf (freeze o).
Proof.
  intros Ho. destruct o; try done.
  inversion Ho; subst. by constructor.
Qed.

Lemma update_wf (path : list string) (f : node → option node) (o o' : node) :
  (∀ x y, wf x → f x = Some y → wf y) →
  wf o → update path f o = Some o' → wf o'.
Proof.
  intros Hf. revert o o'.
  induction path as [|k path IH]; intros o o' Ho; simpl; [by apply Hf|].
  destruct o as [| | | |c ps fr]; try done.
  destruct (lookup_prop k ps) as [child|] eqn:Hk; [|done]. simpl.
  destruct (update path f child) as [child'|] eqn:Hu; [|done]. simpl.
  intros [= <-]. apply wf_set_prop; [done|].
  eapply IH; [|exact Hu]. by eapply wf_props.
Qed.

Lemma assign_wf (path : list string) (v o o' : node) :
  wf v → wf o → assign path v o = Some o' → wf o'.
Proof.
  intros Hv Ho. unfold assign. destruct (last path); [|done].
  apply update_wf; [|done]. intros x y Hx. by apply put_wf.
Qed.

Lemma guarded_Some (path : list string) (r : option node) (o : node) :
  guarded path r = Some o → r = Some o.
Proof. unfold guarded. by destruct (parses path). Qed.

Lemma container_wf : wf container.
Proof.
  constructor; [by_compute|done|]. repeat constructor.
Qed.

Lemma fn_wf (f : func) : plain f → wf (fn f).
Proof. intros Hf. constructor; [constructor| |constructor]. by intros ? [= <-]. Qed.

Lemma stub_fn_plain (m : string) (formals : list string) (er : bool) :
  plain (stub_fn m formals er).
Proof. unfold stub_fn. by destruct (shadowing formals). Qed.

(** A method statement that runs is the assignment of its stub. *)
Lemma exec_method_Some (m : string) (formals : list string) (er : bool)
  (cls cls' : node) :
  exec (EMethod m formals er) cls = Some cls' →
  assign ("prototype" :: segments m) (fn (stub_fn m formals er)) cls
  = Some cls'.
Proof.
  cbn [exec]. intros Hex%guarded_Some.
  by destruct (forallb binding_identifier formals).
Qed.

Lemma exec_wf (fr : fragment) (cls cls' : node) :
  wf cls → exec fr cls = Some cls' → wf cls'.
Proof.
  intros Hwf. destruct fr as [T st|T key val|T|ns|m formals er];
    [simpl; intros Hex%guarded_Some..|intros Hex%exec_method_Some].
  - eapply assign_wf; [|done|exact Hex]. by apply fn_wf.
  - eapply assign_wf; [|done|exact Hex]. constructor.
  - eapply update_wf; [|done|exact Hex].
    intros x y Hx [= <-]. by apply freeze_wf.
  - eapply assign_wf; [|done|exact Hex]. apply container_wf.
  - eapply assign_wf; [|done|exact Hex]. apply fn_wf, stub_fn_plain.
Qed.

Lemma run_wf (frs : list fragment) (cls cls' : node) :
  wf cls → run frs cls = Some cls' → wf cls'.
Proof.
  revert cls. induction frs as [|fr frs IH]; intros cls Hwf; simpl.
  - by intros [= <-].
  - destruct (exec fr cls) as [cls1|] eqn:Hex; [|done]. simpl.
    apply IH. by eapply exec_wf.
Qed.

Lemma template_class_wf (localName : string) : wf (template_class localName).
Proof.
  constructor; [by_compute|by intros ? [= <-]|].
  constructor; [|constructor]. simpl.
  constructor; [by_compute|done|].
  repeat (constructor; [by apply fn_wf|]). constructor.
Qed.

Lemma load_Some (localName : string) (md : Metadata) (cls : node) :
  load localName md = Some cls →
  run (render md) (template_class localName) = Some cls.
Proof. unfold load. by destruct (local_name_ok localName). Qed.

Lemma load_wf (localName : string) (md : Metadata) (cls : node) :
  load localName md = Some cls → wf cls.
Proof. intros Hload%load_Some. by eapply run_wf, Hload; apply template_class_wf. Qed.

Lemma prototype_wf (cls : node) :
  wf cls →
  NoDup (map fst (prototype cls))
  ∧ Forall (fun kv => wf (snd kv)) (prototype cls).
Proof.
  intros Hwf. unfold prototype, get.
  destruct cls as [| | | |c ps fr]; try (split; constructor).
  destruct (lookup_prop "prototype" ps) as [v|] eqn:Hp.
  - pose proof (wf_props _ _ _ _ _ Hwf Hp) as Hv.
    destruct v; try (split; constructor).
    inversion Hv; subst. done.
  - destruct c; simpl; split; constructor.
Qed.

(** ** The constructor and [rebind] *)

Lemma get_primitive (v : node) (k : string) :
  primitive v → primitive (get v k).
Proof.
  destruct v; simpl; try done. by destruct (String.eqb k "length").
Qed.

Lemma reach_primitive (path : list string) (v : node) :
  primitive v → primitive (reach v path).
Proof.
  revert v. induction path as [|k path IH]; intros v Hv; simpl; [done|].
  by apply IH, get_primitive.
Qed.

Lemma reach_bind (f g : func) (self : loc) (path : list string)
  (ps : list (string * node)) (fr : bool) :
  reach (bind f self) path = NObj (Some g) ps fr →
  g = FBound f self.
Proof.
  destruct path as [|k path]; [by intros [= <- _ _]|].
  intros Hr.
  change (reach (bind f self) (k :: path))
    with (reach (get (bind f self) k) path) in Hr.
  assert (Hg : primitive (get (bind f self) k)).
  { unfold bind, get. simpl.
    by destruct (String.eqb k "length"), (String.eqb k "name"). }
  pose proof (reach_primitive path _ Hg) as Hp. by rewrite Hr in Hp.
Qed.

(** What a property of a rebound object can be. *)
Lemma get_rebind_cases (self : loc) (v : node) (k : string) :
  get (rebind self v) k = NUndefined
  ∨ (∃ c ps fr f ps' fr',
        v = NObj c ps fr ∧ (k, NObj (Some f) ps' fr') ∈ ps
        ∧ get (rebind self v) k = bind f self)
  ∨ (∃ c ps fr ps' fr',
        v = NObj c ps fr ∧ (k, NObj None ps' fr') ∈ ps
        ∧ get (rebind self v) k = rebind self (NObj None ps' fr')).
Proof.
  destruct v as [| | | |c ps fr]; try (by left).
  assert (Hlist :
    ∀ qs,
      get (rebind self (NObj c qs fr)) k = NUndefined
      ∨ (∃ f ps' fr', (k, NObj (Some f) ps' fr') ∈ qs
           ∧ get (rebind self (NObj c qs fr)) k = bind f self)
      ∨ (∃ ps' fr', (k, NObj None ps' fr') ∈ qs
           ∧ get (rebind self (NObj c qs fr)) k
             = rebind self (NObj None ps' fr'))).
  { induction qs as [|[k0 p0] qs IH]; [by left|].
    assert (Hskip : primitive p0 →
              get (rebind self (NObj c ((k0, p0) :: qs) fr)) k
              = get (rebind self (NObj c qs fr)) k).
    { by destruct p0. }
    assert (Hlift :
      get (rebind self (NObj c ((k0, p0) :: qs) fr)) k
      = get (rebind self (NObj c qs fr)) k →
      get (rebind self (NObj c ((k0, p0) :: qs) fr)) k = NUndefined
      ∨ (∃ f ps' fr', (k, NObj (Some f) ps' fr') ∈ (k0, p0) :: qs
           ∧ get (rebind self (NObj c ((k0, p0) :: qs) fr)) k = bind f self)
      ∨ (∃ ps' fr', (k, NObj None ps' fr') ∈ (k0, p0) :: qs
           ∧ get (rebind self (NObj c ((k0, p0) :: qs) fr)) k
             = rebind self (NObj None ps' fr'))).
    { intros ->. destruct IH as [?|[(f & ps' & fr' & ? & ?)|(ps' & fr' & ? & ?)]].
      - by left.
      - right; left. exists f, ps', fr'. split; [by apply elem_of_cons; right|done].
      - right; right. exists ps', fr'. split; [by apply elem_of_cons; right|done]. }
    destruct p0 as [| | | |[f0|] ps0 fr0];
      try (apply Hlift, Hskip; exact I).
    - destruct (String.eqb k k0) eqn:Hk.
      + apply String.eqb_eq in Hk as <-. right; left.
        exists f0, ps0, fr0. split; [by apply elem_of_cons; left|].
        simpl. by rewrite String.eqb_refl.
      + apply Hlift. simpl. by rewrite Hk.
    - destruct (String.eqb k k0) eqn:Hk.
      + apply String.eqb_eq in Hk as <-. right; right.
        exists ps0, fr0. split; [by apply elem_of_cons; left|].
        simpl. by rewrite String.eqb_refl.
      + apply Hlift. simpl. by rewrite Hk. }
  destruct (Hlist ps) as [?|[(f & ps' & fr' & ? & ?)|(ps' & fr' & ? & ?)]].
  - by left.
  - right; left. by exists c, ps, fr, f, ps', fr'.
  - right; right. by exists c, ps, fr, ps', fr'.
Qed.

Lemma wf_elem (c : option func) (ps : list (string * node)) (fr : bool)
  (k : string) (v : node) :
  wf (NObj c ps fr) → (k, v) ∈ ps → wf v.
Proof.
  intros Hwf Hin. inversion Hwf as [| | | |c' ps' fr' _ _ Hall]; subst.
  by apply (proj1 (Forall_forall _ _) Hall (k, v)).
Qed.

Lemma wf_plain (f : func) (ps : list (string * node)) (fr : bool) :
  wf (NObj (Some f) ps fr) → plain f.
Proof. intros Hwf. inversion Hwf; subst. auto. Qed.

(** Every function reachable in a rebound object is a plain function
    bound to [self]. *)
Lemma rebind_reach (self : loc) (path : list string) (v : node) (f : func)
  (ps : list (string * node)) (fr : bool) :
  wf v → reach (rebind self v) path = NObj (Some f) ps fr →
  ∃ t, f = FBound t self ∧ plain t.
Proof.
  revert v. induction path as [|k path IH]; intros v Hwf; simpl.
  - by destruct v.
  - destruct (get_rebind_cases self v k)
      as [->|[(c & qs & fr0 & f0 & ps' & fr' & -> & Hin & ->)
             |(c & qs & fr0 & ps' & fr' & -> & Hin & ->)]].
    + intros Hr. pose proof (reach_primitive path NUndefined I) as Hp.
      by rewrite Hr in Hp.
    + intros ->%reach_bind. exists f0. split; [done|].
      eapply wf_plain, wf_elem; [exact Hwf|exact Hin].
    + apply IH. by eapply wf_elem.
Qed.

Lemma rebind_step_other (self : loc) (acc : list (string * node))
  (entry : string * node) (k : string) :
  k ≠ fst entry →
  lookup_prop k (rebind_step self acc entry) = lookup_prop k acc.
Proof.
  destruct entry as [i v]. simpl. intros Hne. case_bool_decide; [done|].
  destruct (truthy_node v && truthy_node (get v "_ns")); [|done].
  by apply lookup_set_prop_ne.
Qed.

Lemma rebind_all_other (self : loc) (proto acc : list (string * node))
  (k : string) :
  k ∉ map fst proto →
  lookup_prop k (foldl (rebind_step self) acc proto) = lookup_prop k acc.
Proof.
  revert acc. induction proto as [|entry proto IH]; intros acc Hk; simpl;
    [done|].
  apply not_elem_of_cons in Hk as [Hne Hk].
  rewrite IH by done. by apply rebind_step_other.
Qed.

Lemma truthy_ns_object (v : node) :
  truthy_node (get v "_ns") = true → truthy_node v = true.
Proof. by destruct v. Qed.

(** The loop over the prototype rebinds every container. *)
Lemma rebind_all_container (self : loc) (proto acc : list (string * node))
  (k : string) (v : node) :
  NoDup (map fst proto) → lookup_prop k proto = Some v →
  k ∉ ["defaultTransport"; "rpc"] →
  truthy_node (get v "_ns") = true →
  lookup_prop k (foldl (rebind_step self) acc proto) = Some (rebind self v).
Proof.
  intros Hnd Hk Hown Hns. revert acc Hnd Hk.
  induction proto as [|[k0 v0] proto IH]; intros acc Hnd Hk; simpl in *;
    [done|].
  apply NoDup_cons in Hnd as [Hk0 Hnd].
  destruct (String.eqb k k0) eqn:Hkk.
  - apply String.eqb_eq in Hkk as <-. injection Hk as <-.
    rewrite rebind_all_other by done.
    rewrite bool_decide_eq_false_2 by done.
    rewrite Hns, (truthy_ns_object _ Hns). simpl.
    apply lookup_set_prop_eq.
  - by apply IH.
Qed.

(** The instance that [new] leaves on the heap. *)
Lemma new_Proxy_constructed (fuel : nat) (cls : node) (url ssl : jsval)
  (h h' : heap) (self : loc) (i : instance) :
  new_Proxy fuel cls url ssl h = Some (Ok (self, h')) →
  h' !! self = Some i →
  self = length h ∧ i = constructed cls self url ssl ∧ h' = h ++ [i].
Proof.
  rewrite new_Proxy_eq. destruct (nonempty_string url); [|done].
  intros [= <- <-] Hi.
  rewrite lookup_app_r in Hi by lia. rewrite Nat.sub_diag in Hi.
  by injection Hi as <-.
Qed.

Lemma not_own_field (k : string) :
  k ∉ ["defaultTransport"; "rpc"] →
  String.eqb k "defaultTransport" = false ∧ String.eqb k "rpc" = false.
Proof.
  intros Hk. split; apply String.eqb_neq; intros ->; apply Hk.
  - by apply elem_of_cons; left.
  - apply elem_of_cons; right. by apply elem_of_cons; left.
Qed.

(** On a new instance, a property other than the two fields is read from
    what the loop stored, else from the prototype. *)
Lemma member_value_constructed (cls : node) (self : loc) (url ssl : jsval)
  (k : string) :
  k ∉ ["defaultTransport"; "rpc"] →
  member_value cls (constructed cls self url ssl) k
  = Some (match lookup_prop k (rebind_all self (prototype cls)) with
          | Some v => v
          | None => default NUndefined (lookup_prop k (prototype cls))
          end).
Proof.
  intros [Hdt Hrpc]%not_own_field. unfold member_value, own_property.
  rewrite Hdt, Hrpc. unfold constructed. simpl.
  by destruct (lookup_prop k (rebind_all self (prototype cls))).
Qed.

(** On a new instance a namespace container of the prototype is read as
    its rebound copy. *)
Lemma member_value_container (cls : node) (self : loc) (url ssl : jsval)
  (k : string) (v : node) :
  NoDup (map fst (prototype cls)) →
  lookup_prop k (prototype cls) = Some v →
  truthy_node (get v "_ns") = true →
  k ∉ ["defaultTransport"; "rpc"] →
  member_value cls (constructed cls self url ssl) k = Some (rebind self v).
Proof.
  intros Hnd Hk Hns Hown. rewrite member_value_constructed by done.
  unfold rebind_all.
  by rewrite (rebind_all_container _ _ _ k v Hnd Hk Hown Hns).
Qed.

(** Let [cls] be the class the generated source defines and [self] the
    instance [new] returns.  For every property [k] of the prototype that
    is a namespace container (its [_ns] reads true; [defaultTransport] and
    [rpc] are taken by the instance's own fields), [proxy.k] is the rebound
    copy of the container, and every function reached from it by any chain
    of reads of own properties is a function of the emitted source bound to
    [self]: called on any receiver, with any arguments, on any heap, it
    does what its target does when run on the proxy instance. *)
Lemma container_functions_bound (localName : string) (md : Metadata)
  (cls : node) (fuel : nat) (url ssl : jsval) (h h' : heap) (self : loc)
  (i : instance) (k : string) (v : node) :
  load localName md = Some cls →
  new_Proxy fuel cls url ssl h = Some (Ok (self, h')) →
  h' !! self = Some i →
  lookup_prop k (prototype cls) = Some v →
  truthy_node (get v "_ns") = true →
  k ∉ ["defaultTransport"; "rpc"] →
  member_value cls i k = Some (rebind self v)
  ∧ ∀ path f ps fr,
      reach (rebind self v) path = NObj (Some f) ps fr →
      ∃ t, f = FBound t self ∧ plain t
           ∧ ∀ this args h2,
               call_func f this args h2 = call_func t (VRef self) args h2.
Proof.
  intros Hload Hnew Hi Hk Hns Hown.
  pose proof (load_wf _ _ _ Hload) as Hwf.
  destruct (prototype_wf cls Hwf) as [Hnd Hall].
  destruct (new_Proxy_constructed _ _ _ _ _ _ _ _ Hnew Hi) as (_ & -> & _).
  split; [by apply member_value_container|].
  intros path f ps fr Hr.
  assert (Hv : wf v).
  { apply lookup_prop_elem in Hk.
    by apply (proj1 (Forall_forall _ _) Hall (k, v)). }
  destruct (rebind_reach _ _ _ _ _ _ Hv Hr) as (t & -> & Ht).
  exists t. split; [done|]. split; [done|]. reflexivity.
Qed.

(** C4, on the methods [a] and [a.b]: the namespace [a] is implied by
    [a.b] and its container is emitted, but the stub of the method [a] then
    replaces the container and the stub of [a.b] is attached to that
    function.  The constructor's loop finds no [_ns] on it and leaves it
    alone: on a new instance [proxy.a.b] is the stub as emitted, not bound.
    It runs on whatever receiver the call gives it: extracted and called
    detached it raises and sends nothing, and called on a second proxy it
    sends over that proxy's tunnel, the first proxy's tunnel getting
    nothing.  Where no method takes the place of a container, as for
    [a.b.foo] in the sample with three methods, the function found on the
    instance, called detached, does send over the instance's tunnel. *)
Theorem method_under_method_not_bound :
  ENamespace "a" ∈ render overlapping
  ∧ ∃ cls h i top,
      load "Proxy" overlapping = Some cls
      ∧ new_Proxy 0 cls (VStr "http://host") VUndefined []
        = Some (Ok (0%nat, h))
      ∧ h !! 0%nat = Some i
      ∧ member_value cls i "a" = Some top
      ∧ reach top ["b"] = fn (FStub "a.b" 0 false)
      ∧ (∀ args h2,
           call_func (FStub "a.b" 0 false) VUndefined args h2
           = Some (Throw TypeError))
      ∧ ∃ h2 h3,
          new_Proxy 0 cls (VStr "http://other") VUndefined h
          = Some (Ok (1%nat, h2))
          ∧ call_func (FStub "a.b" 0 false) (VRef 1%nat) [] h2
            = Some (Ok (VUndefined, h3))
          ∧ calls h3 0%nat = []
          ∧ calls h3 1%nat
            = [ {| c_method := "a.b"; c_params := [];
                   c_expectReturn := Some false; c_transport := Some "http";
                   c_callback := VNull |} ]
          ∧ ∃ top' g h4,
              member_value nested_class nested_instance "a" = Some top'
              ∧ reach top' ["b"; "foo"] = NObj (Some g) [] false
              ∧ call_func g VUndefined [] [nested_instance]
                = Some (Ok (VUndefined, h4))
              ∧ calls h4 0%nat
                = [ {| c_method := "a.b.foo"; c_params := [];
                       c_expectReturn := Some false;
                       c_transport := Some "http"; c_callback := VNull |} ].
Proof.
  split; [by_compute|].
  eexists _, _, _, _. split; [by vm_compute|]. split; [by vm_compute|].
  split; [by vm_compute|]. split; [by vm_compute|]. split; [by vm_compute|].
  split; [done|].
  eexists _, _. split; [by vm_compute|]. split; [by vm_compute|].
  split; [by vm_compute|]. split; [by vm_compute|].
  eexists _, _, _. split; [by vm_compute|]. split; [by vm_compute|].
  split; by vm_compute.
Qed.

(** ** Transport switches *)

Lemma segments_nonempty (s : string) : segments s ≠ [].
Proof.
  destruct s as [|a s]; simpl; [done|].
  destruct (Ascii.eqb a "."); [done|]. by destruct (segments s).
Qed.






Lemma update_cons (k : string) (rest : list string) (f : node → option node)
  (o : node) :
  update (k :: rest) f o
  = match o with
    | NObj c ps fr =>
        match lookup_prop k ps with
        | Some child =>
            match update rest f child with
            | Some child' => Some (NObj c (set_prop k child' ps) fr)
            | None => None
            end
        | None => None
        end
    | _ => None
    end.
Proof.
  by destruct o.
Qed.











(** ** The statements emitted for one enum type *)

Lemma set_prop_set_prop (k : string) (v v' : node)
  (ps : list (string * node)) :
  set_prop k v' (set_prop k v ps) = set_prop k v' ps.
Proof.
  induction ps as [|[k0 v0] ps IH]; simpl.
  - by rewrite String.eqb_refl.
  - destruct (String.eqb k k0) eqn:Hk; simpl.
    + by rewrite String.eqb_refl.
    + by rewrite Hk, IH.
Qed.

Lemma identifier_part_no_dot (a : ascii) :
  identifier_part a = true → Ascii.eqb a "."%char = false.
Proof.
  destruct (Ascii.eqb_spec a "."%char) as [->|]; [|done].
  intros H. by vm_compute in H.
Qed.

Lemma segments_no_dot (s : string) :
  all_chars identifier_part s = true → segments s = [s].
Proof.
  induction s as [|a s IH]; [done|]. simpl.
  intros [Ha Hs]%andb_true_iff.
  by rewrite (identifier_part_no_dot a Ha), (IH Hs).
Qed.

(** An identifier name has no dot: it reads back as one segment. *)
Lemma identifier_segments (s : string) :
  identifier_name s = true → segments s = [s].
Proof.
  destruct s as [|a s]; [done|]. simpl. intros [Ha Hs]%andb_true_iff.
  apply (segments_no_dot (String a s)). simpl. rewrite Hs.
  unfold identifier_part. by rewrite Ha.
Qed.

Lemma assignable_spec (k : string) :
  assignable k = true →
  segments k = [k] ∧ parses [k] = true ∧ String.eqb k "__proto__" = false
  ∧ k ∉ readonly_function_keys.
Proof.
  unfold assignable. rewrite !andb_true_iff, negb_true_iff.
  rewrite bool_decide_eq_true. intros [[Hid Hproto] Hro].
  split; [by apply identifier_segments|]. split; [|done].
  simpl. by rewrite Hid.
Qed.

Lemma put_assignable (k : string) (v : node) (c : option func)
  (ps : list (string * node)) :
  assignable k = true →
  put k v (NObj c ps false) = Some (NObj c (set_prop k v ps) false).
Proof.
  intros (_ & _ & Hproto & Hro)%assignable_spec. unfold put. rewrite Hproto.
  rewrite bool_decide_eq_false_2; [done|]. by intros [_ ?].
Qed.

(** The statements [Proxy.T.label = value], run in order on a class that
    holds the accessor of [T]. *)
Lemma enum_props_run (T : string) (f : func) (struct : list (string * Z))
  (rest : list fragment) (c : option func) (ps props : list (string * node)) :
  assignable T = true →
  Forall (fun kv => assignable (fst kv) = true) struct →
  run (map (fun kv => EEnumProp T (fst kv) (snd kv)) struct ++ rest)
      (NObj c (set_prop T (NObj (Some f) props false) ps) false)
  = run rest
      (NObj c (set_prop T
                 (NObj (Some f)
                    (foldl (fun ps kv => set_prop (fst kv) (NNum (snd kv)) ps)
                           props struct) false) ps) false).
Proof.
  intros HT Hall. revert props.
  induction Hall as [|[k v] struct Hk _ IH]; intros props; [done|].
  destruct (assignable_spec T HT) as (HsegT & HparT & _ & _).
  destruct (assignable_spec k Hk) as (Hsegk & Hpark & _ & _).
  cbn [map app run fst snd foldl]. unfold exec.
  rewrite HsegT, Hsegk. unfold guarded.
  replace (parses ([T] ++ [k])) with true
    by (simpl in *; apply andb_true_iff in HparT as [-> _];
        by apply andb_true_iff in Hpark as [-> _]).
  unfold assign. cbn [app last removelast]. rewrite update_cons.
  rewrite lookup_set_prop_eq. cbn [update].
  rewrite (put_assignable k _ _ _ Hk). cbn [mbind option_bind].
  rewrite set_prop_set_prop. apply IH.
Qed.

(** The statements emitted for the enum type [T], run on a class that is
    not frozen: the class gets the accessor, a frozen function that carries
    one numeric property per label, when the type name and the labels are
    assignable names. *)
Lemma enum_type_run (T : string) (struct : list (string * Z))
  (c : option func) (ps : list (string * node)) :
  assignable T = true →
  Forall (fun kv => assignable (fst kv) = true) struct →
  run (generateType (EnumType T struct)) (NObj c ps false)
  = Some (NObj c (set_prop T (NObj (Some (FEnum struct)) (enum_props struct)
                                true) ps) false).
Proof.
  intros HT Hall.
  destruct (assignable_spec T HT) as (HsegT & HparT & _ & _).
  unfold generateType. cbn [run]. unfold exec at 1.
  rewrite HsegT. unfold guarded. rewrite HparT.
  unfold assign. cbn [last removelast update].
  destruct (assignable_spec T HT) as (_ & _ & Hproto & Hro).
  assert (Hput : put T (fn (FEnum struct)) (NObj c ps false)
                 = Some (NObj c (set_prop T (fn (FEnum struct)) ps) false)).
  { unfold put. rewrite Hproto. rewrite bool_decide_eq_false_2; [done|].
    by intros [_ ?]. }
  rewrite Hput. cbn [mbind option_bind]. unfold fn.
  rewrite (enum_props_run T _ struct [EFreeze T] c ps [] HT Hall).
  cbn [run]. unfold exec. rewrite HsegT. unfold guarded. rewrite HparT.
  rewrite update_cons, lookup_set_prop_eq. cbn [update freeze].
  cbn [mbind option_bind]. by rewrite set_prop_set_prop.
Qed.

Lemma foldl_set_prop_other (struct : list (string * Z))
  (props : list (string * node)) (k : string) :
  k ∉ map fst struct →
  lookup_prop k (foldl (fun ps kv => set_prop (fst kv) (NNum (snd kv)) ps)
                       props struct)
  = lookup_prop k props.
Proof.
  revert props. induction struct as [|[k0 v0] struct IH]; intros props Hk;
    [done|].
  simpl in *. apply not_elem_of_cons in Hk as [Hne Hk].
  rewrite IH by done. by apply lookup_set_prop_ne.
Qed.

(** With distinct labels, every label ends up holding its value. *)
Lemma enum_props_lookup (struct : list (string * Z)) (k : string) (v : Z) :
  NoDup (map fst struct) → (k, v) ∈ struct →
  lookup_prop k (enum_props struct) = Some (NNum v).
Proof.
  unfold enum_props. generalize (@nil (string * node)).
  induction struct as [|[k0 v0] struct IH]; intros props Hnd Hin;
    [by apply elem_of_nil in Hin|].
  simpl in *. apply NoDup_cons in Hnd as [Hk0 Hnd].
  apply elem_of_cons in Hin as [[= -> ->]|Hin]; [|by apply IH].
  rewrite foldl_set_prop_other by done. apply lookup_set_prop_eq.
Qed.

(** X4: on the enum types whose name and labels are identifier names
    that an assignment to a function can set (not [length], [name],
    [arguments], [caller] or [__proto__]) and whose labels and values are
    distinct: the statements emitted for the type parse and run without
    raising; the accessor they leave on the class converts both ways,
    exposes every label as a numeric property and is frozen, so that later
    writes leave it unchanged. *)
Lemma enum_accessor_assignable (T : string) (struct : list (string * Z))
  (c : option func) (ps : list (string * node)) (k : string) (v : Z) :
  assignable T = true →
  Forall (fun kv => assignable (fst kv) = true) struct →
  NoDup (map fst struct) → NoDup (map snd struct) → (k, v) ∈ struct →
  ∃ cls props,
    run (generateType (EnumType T struct)) (NObj c ps false) = Some cls
    ∧ accessor cls T = NObj (Some (FEnum struct)) props true
    ∧ enum_call struct (VStr k) = VNum v
    ∧ enum_call struct (VNum v) = VStr k
    ∧ get (accessor cls T) k = NNum v
    ∧ ∀ k' x, String.eqb k' "__proto__" = false →
              put k' x (accessor cls T) = Some (accessor cls T).
Proof.
  intros HT Hall Hlabels Hvalues Hin.
  eexists _, (enum_props struct). split; [by apply enum_type_run|].
  unfold accessor. simpl. rewrite lookup_set_prop_eq.
  split; [done|]. split; [by apply enum_call_label|].
  split; [by apply enum_call_value|]. split.
  - simpl. by rewrite (enum_props_lookup struct k v Hlabels Hin).
  - intros k' x Hk'. unfold put. by rewrite Hk'.
Qed.

(** C1, on the enum [{length: 5}]: the emitted source loads; the accessor
    converts both ways and is frozen; but the statement
    [Proxy.Dim.length = 5] writes to the function's own non-writable
    [length], so [Proxy.Dim.length] stays the number of formal parameters,
    1, and the label is not exposed as a property. *)
Theorem enum_label_length_not_exposed :
  ∃ cls,
    load "Proxy" dimension = Some cls
    ∧ accessor cls "Dim" = NObj (Some (FEnum [("length", 5)])) [] true
    ∧ call_func (FEnum [("length", 5)]) VUndefined [VStr "length"] []
      = Some (Ok (VNum 5, []))
    ∧ call_func (FEnum [("length", 5)]) VUndefined [VNum 5] []
      = Some (Ok (VStr "length", []))
    ∧ get (accessor cls "Dim") "length" = NNum 1
    ∧ get (accessor cls "Dim") "length" ≠ NNum 5.
Proof.
  eexists. split; [by vm_compute|]. by vm_compute.
Qed.

(** ** Removing listeners and closing *)









(** X3: [close()] on an instance with a tunnel only closes the tunnel: it
    makes no tunnel call (no unsubscribe for the names that have
    listeners), and leaves the listeners, the default transport and the
    namespaces of the instance as they were; called again it does the
    same.  On an instance without a tunnel it raises. *)
Theorem close_only_closes_tunnel (h : heap) (l : loc) (i : instance) :
  h !! l = Some i →
  match rpc i with
  | Some t =>
      ∃ h' i' t',
        close l h = Some (Ok (VUndefined, h'))
        ∧ h' !! l = Some i'
        ∧ rpc i' = Some t' ∧ t_closed t' = true
        ∧ calls h' l = t_calls t
        ∧ listeners i' = listeners i
        ∧ defaultTransport i' = defaultTransport i
        ∧ own i' = own i
        ∧ close l h' = Some (Ok (VUndefined, h'))
  | None => close l h = Some (Throw TypeError)
  end.
Proof.
  intros Hl. destruct (rpc i) as [t|] eqn:Ht.
  - set (t' := {| t_url := t_url t; t_ssl := t_ssl t;
                  t_calls := t_calls t; t_closed := true |}).
    assert (Hclose : close l h = Some (Ok (VUndefined, <[l := set_rpc t' i]> h))).
    { unfold close. rewrite Hl. simpl. by rewrite Ht. }
    exists (<[l := set_rpc t' i]> h), (set_rpc t' i), t'.
    split; [done|]. split. { by eapply heap_lookup_insert. }
    split; [done|]. split; [done|].
    split. { by rewrite (calls_insert h l i _ Hl). }
    split; [done|]. split; [done|]. split; [done|].
    unfold close. rewrite (heap_lookup_insert h l i _ Hl). simpl.
    by rewrite list_insert_insert_eq.
  - unfold close. rewrite Hl. simpl. by rewrite Ht.
Qed.

Lemma close_only_closes_tunnel_witness :
  ∃ h', close 0%nat one_proxy = Some (Ok (VUndefined, h'))
        ∧ calls h' 0%nat = [].
Proof.
  pose proof (close_only_closes_tunnel one_proxy 0%nat _ eq_refl) as H.
  simpl in H. destruct H as (h' & i' & t' & Hclose & _ & _ & _ & Hcalls & _).
  exists h'. split; [exact Hclose|exact Hcalls].
Defined.

(** ** More on enum accessors *)

Lemma enum_accessor_assignable_witness :
  ∃ cls,
    run (generateType (EnumType "RenderMode" modes)) (template_class "Proxy")
    = Some cls
    ∧ enum_call modes (VStr "RtGpuOpenCL") = VNum 4
    ∧ enum_call modes (VNum 4) = VStr "RtGpuOpenCL"
    ∧ get (accessor cls "RenderMode") "RtGpuOpenCL" = NNum 4.
Proof.
  assert (Hin : ("RtGpuOpenCL", 4) ∈ modes).
  { do 2 (apply elem_of_cons; right). apply elem_of_cons. by left. }
  assert (HT : assignable "RenderMode" = true) by by vm_compute.
  assert (Hall : Forall (fun kv : string * Z => assignable (fst kv) = true)
                        modes).
  { repeat constructor. }
  assert (Hl : NoDup (map fst modes)) by by_compute.
  assert (Hv : NoDup (map snd modes)) by by_compute.
  destruct (enum_accessor_assignable "RenderMode" modes
              (Some (FCtor "Proxy"))
              [("prototype", NObj None template_prototype false)]
              "RtGpuOpenCL" 4 HT Hall Hl Hv Hin)
    as (cls & props & Hrun & _ & Hk & Hval & Hget & _).
  exists cls. split; [exact Hrun|]. split; [exact Hk|].
  split; [exact Hval|exact Hget].
Defined.

Lemma switch_all_miss (cs : list (jsval * jsval)) (val : jsval) :
  Forall (fun c => case_matches (fst c) val = false) cs →
  switch cs val = VUndefined.
Proof.
  intros H. rewrite <- (app_nil_r cs). by rewrite switch_app_miss.
Qed.

(** X5: called with anything that is neither one of the labels (as a
    string) nor one of the values (as a number), the accessor returns
    [undefined]: no case of the [switch] matches and there is no default. *)
Theorem enum_call_unknown (struct : list (string * Z)) (val : jsval) :
  (∀ k, val = VStr k → k ∉ map fst struct) →
  (∀ v, val = VNum v → v ∉ map snd struct) →
  enum_call struct val = VUndefined.
Proof.
  intros Hk Hv. unfold enum_call, enum_cases. apply switch_all_miss.
  apply Forall_app. split; apply Forall_forall; intros [lbl r].
  - intros ([k v] & [= -> ->] & Hin)%list_elem_of_fmap. simpl.
    destruct val as [| | | |s| | | |]; try done.
    apply String.eqb_neq. intros ->. apply (Hk s eq_refl).
    apply list_elem_of_fmap. by exists (s, v).
  - intros ([k v] & [= -> ->] & Hin)%list_elem_of_fmap. simpl.
    destruct val as [| | |n| | | | |]; try done.
    apply Z.eqb_neq. intros ->. apply (Hv n eq_refl).
    apply list_elem_of_fmap. by exists (k, n).
Qed.

Lemma enum_call_unknown_witness :
  enum_call modes (VStr "Preview") = VUndefined
  ∧ enum_call modes (VNum 7) = VUndefined
  ∧ enum_call modes VUndefined = VUndefined.
Proof.
  split; [|split]; apply enum_call_unknown.
  - intros k [= <-]. by_compute.
  - by intros v [=].
  - by intros k [=].
  - intros v [= <-]. by_compute.
  - by intros k [=].
  - by intros v [=].
Defined.

(** X6: called with a number, the accessor returns the first label, in
    key order, that has this value; labels that come later with the same
    value are never returned. *)
Theorem enum_call_first_label (l1 l2 : list (string * Z)) (k : string)
  (v : Z) :
  v ∉ map snd l1 →
  enum_call (l1 ++ (k, v) :: l2) (VNum v) = VStr k.
Proof.
  intros Hv. unfold enum_call, enum_cases.
  rewrite switch_app_miss by (apply Forall_map; by apply Forall_true).
  rewrite map_app. rewrite switch_app_miss.
  - simpl. by rewrite Z.eqb_refl.
  - apply Forall_forall. intros [lbl r].
    intros ([k' v'] & [= -> ->] & Hin)%list_elem_of_fmap. simpl.
    apply Z.eqb_neq. intros ->. apply Hv.
    apply list_elem_of_fmap. by exists (k', v).
Qed.

Lemma enum_call_first_label_witness :
  enum_call [("and", 0); ("or", 1); ("either", 1)] (VNum 1) = VStr "or".
Proof.
  apply (enum_call_first_label [("and", 0)] [("either", 1)] "or" 1).
  by_compute.
Defined.

(** ** What the namespace scriptlets emit, and what they do not *)

Lemma collect_NoDup (acc : list string) (m : string) :
  NoDup acc → NoDup (collect acc m).
Proof.
  intros Hnd. unfold collect. destruct (lastIndexOf m "." =? -1); [done|].
  case_bool_decide as Hin; [done|].
  apply NoDup_app. split; [done|]. split; [|apply NoDup_singleton].
  by intros x Hx ->%list_elem_of_singleton.
Qed.

Lemma collect_elem (acc : list string) (m p : string) :
  p ∈ collect acc m → p ∈ acc ∨ parent m = Some p.
Proof.
  unfold collect, parent. destruct (lastIndexOf m "." =? -1); [by left|].
  case_bool_decide; [by left|].
  intros [?|Hp%list_elem_of_singleton]%elem_of_app; [by left|].
  right. by rewrite Hp.
Qed.

Lemma namespaces_NoDup (md : Metadata) : NoDup (namespaces md).
Proof.
  unfold namespaces.
  assert (H : ∀ ms acc, NoDup acc → NoDup (foldl collect acc ms)).
  { induction ms as [|m ms IH]; intros acc Hacc; simpl; [done|].
    by apply IH, collect_NoDup. }
  apply H. constructor.
Qed.

Lemma namespaces_elem (md : Metadata) (p : string) :
  p ∈ namespaces md → ∃ m, m ∈ map fst (methods md) ∧ parent m = Some p.
Proof.
  unfold namespaces.
  assert (H : ∀ ms acc, p ∈ foldl collect acc ms →
              p ∈ acc ∨ ∃ m, m ∈ ms ∧ parent m = Some p).
  { induction ms as [|m ms IH]; intros acc; simpl; [by left|].
    intros [[?|?]%collect_elem|(m' & ? & ?)]%IH.
    - by left.
    - right. exists m. split; [by apply elem_of_cons; left|done].
    - right. exists m'. split; [by apply elem_of_cons; right|done]. }
  intros [?%elem_of_nil|?]%H; done.
Qed.

(** X7: the list [namespaces] holds each name once, and holds exactly the
    parents of the registered method names: a method without a dot adds
    nothing, and events add nothing. *)
Theorem namespaces_are_method_parents (md : Metadata) :
  NoDup (namespaces md)
  ∧ ∀ p, p ∈ namespaces md
         ↔ ∃ m, m ∈ map fst (methods md) ∧ parent m = Some p.
Proof.
  split; [apply namespaces_NoDup|].
  intros p. split; [apply namespaces_elem|].
  intros (m & Hm & Hp). by eapply namespaces_parent.
Qed.

(** What one call of [stubNamespace] can add to the output. *)
Lemma stubNamespace_out (ns : string) (st : gen) (x : fragment) :
  stubs_inv st →
  x ∈ out (stubNamespace ns st) →
  x ∈ out st
  ∨ ∃ p, x = ENamespace p ∧ (p = ns ∨ implied ns p)
         ∧ p ∉ Object_prototype_keys.
Proof.
  remember (String.length ns) as n eqn:Hn. revert ns Hn st.
  induction n as [n IH] using lt_wf_ind. intros ns -> st Hinv.
  rewrite stubNamespace_eq.
  set (st1 := match parent ns with
              | Some p => stubNamespace p st
              | None => st
              end).
  assert (Hinv1 : stubs_inv st1).
  { unfold st1. destruct (parent ns); [|done].
    by apply stubNamespace_inv. }
  assert (H1 : x ∈ out st1 →
               x ∈ out st
               ∨ ∃ p, x = ENamespace p ∧ (p = ns ∨ implied ns p)
                      ∧ p ∉ Object_prototype_keys).
  { unfold st1. destruct (parent ns) as [q|] eqn:Hq; [|by left].
    intros Hx.
    apply (IH _ (parent_shorter _ _ Hq) q eq_refl st Hinv) in Hx
      as [?|(p & -> & Hp & Hk)]; [by left|].
    right. exists p. split; [done|]. split; [|done]. right.
    destruct Hp as [->|Hp]; [by apply implied_parent|].
    by eapply implied_further. }
  simpl. destruct (stubs_truthy (stubs st1) ns) eqn:Htr; [done|].
  simpl. intros [?|Hx%list_elem_of_singleton]%elem_of_app; [by apply H1|].
  subst x.
  right. exists ns. split; [done|]. split; [by left|].
  intros Hk.
  assert (Hc : covered st1 ns) by (by left).
  apply (stubs_truthy_covered st1 ns Hinv1) in Hc. by rewrite Hc in Htr.
Qed.

(** What [namespaces.forEach(stubNamespace)] can add to the output. *)
Lemma forEach_stubNamespace_out (nss : list string) (st : gen)
  (x : fragment) :
  stubs_inv st →
  x ∈ out (foldl (fun st ns => stubNamespace ns st) st nss) →
  x ∈ out st
  ∨ ∃ ns p, ns ∈ nss ∧ x = ENamespace p
            ∧ (p = ns ∨ implied ns p)
            ∧ p ∉ Object_prototype_keys.
Proof.
  revert st. induction nss as [|ns nss IH]; intros st Hinv; simpl;
    [by left|].
  destruct (stubNamespace_inv ns st Hinv) as (Hinv1 & _ & _).
  intros [Hx|(ns' & p & ? & ? & ? & ?)]%(IH _ Hinv1).
  - apply (stubNamespace_out ns st x Hinv) in Hx as [?|(p & ? & ? & ?)].
    + by left.
    + right. exists ns, p. split; [by apply elem_of_cons; left|done].
  - right. exists ns', p. split; [by apply elem_of_cons; right|done].
Qed.

Lemma generateNamespaces_elem (md : Metadata) (x : fragment) :
  x ∈ generateNamespaces md →
  ∃ m p, x = ENamespace p
         ∧ m ∈ map fst (methods md) ∧ implied m p
         ∧ p ∉ Object_prototype_keys.
Proof.
  unfold generateNamespaces.
  intros [?%elem_of_nil|(ns & p & Hns & -> & Hp & Hk)]
    %(forEach_stubNamespace_out _ _ _ empty_gen_inv); [done|].
  apply namespaces_elem in Hns as (m & Hm & Hpar).
  exists m, p. split; [done|]. split; [done|]. split; [|done].
  destruct Hp as [->|Hp]; [by apply implied_parent|].
  by eapply implied_further.
Qed.



(** X8: every fragment the namespace scriptlets emit is the container stub
    of a path implied by some registered method name, and never of a name
    that object literals inherit ([toString], [constructor], ...): for such
    a namespace no container is emitted at all, also when a method is
    registered in it. *)
Theorem namespace_stubs_are_implied (md : Metadata) :
  (∀ x, x ∈ generateNamespaces md →
        ∃ m p, x = ENamespace p
               ∧ m ∈ map fst (methods md) ∧ implied m p
               ∧ p ∉ Object_prototype_keys)
  ∧ (∀ p, p ∈ Object_prototype_keys → ENamespace p ∉ render md).
Proof.
  split; [apply generateNamespaces_elem|].
  intros p Hk. unfold render. rewrite !elem_of_app.
  intros [Hin|[Hin|Hin]].
  - by apply generateTypes_no_namespace in Hin.
  - apply generateNamespaces_elem in Hin as (m & p' & [= <-] & _ & _ & ?).
    done.
  - by apply generateMethods_no_namespace in Hin.
Qed.

Lemma namespace_stubs_are_implied_witness :
  ∃ m p, ENamespace "a.b" = ENamespace p
         ∧ m ∈ map fst (methods nested) ∧ implied m p
         ∧ p ∉ Object_prototype_keys.
Proof.
  apply (proj1 (namespace_stubs_are_implied nested) (ENamespace "a.b")).
  by_compute.
Defined.

(** A namespace that is dealt with is left alone by [stubNamespace]. *)
Lemma stubNamespace_covered (ns : string) (st : gen) :
  stubs_inv st → covered st ns → stubNamespace ns st = st.
Proof.
  remember (String.length ns) as n eqn:Hn. revert ns Hn st.
  induction n as [n IH] using lt_wf_ind. intros ns -> st Hinv Hc.
  rewrite stubNamespace_eq.
  assert (H1 : match parent ns with
               | Some p => stubNamespace p st
               | None => st
               end = st).
  { destruct (parent ns) as [q|] eqn:Hq; [|done].
    apply (IH _ (parent_shorter _ _ Hq) q eq_refl st Hinv).
    by eapply covered_parent. }
  simpl. rewrite H1.
  by rewrite (proj2 (stubs_truthy_covered st ns Hinv) Hc).
Qed.

(** X9: [stubNamespace] is idempotent: on a generator state reached by
    calls of [stubNamespace] from the empty one, a second call for the same
    namespace changes neither [stubs] nor the output, so that a namespace
    reached from several methods is emitted once. *)
Theorem stubNamespace_idempotent (nss : list string) (ns : string) :
  let st := foldl (fun st ns => stubNamespace ns st) empty_gen nss in
  stubNamespace ns (stubNamespace ns st) = stubNamespace ns st.
Proof.
  intros st.
  destruct (forEach_stubNamespace_inv nss empty_gen empty_gen_inv)
    as (Hinv & _ & _). fold st in Hinv.
  destruct (stubNamespace_inv ns st Hinv) as (Hinv' & _ & Hc).
  by apply stubNamespace_covered.
Qed.

(** ** What [rebind] keeps *)

Lemma get_rebind_absent (self : loc) (c : option func)
  (ps : list (string * node)) (fr : bool) (k : string) :
  k ∉ map fst ps → get (rebind self (NObj c ps fr)) k = NUndefined.
Proof.
  induction ps as [|[k0 p0] ps IH]; [done|].
  intros [Hne Hk]%not_elem_of_cons. simpl in Hne.
  apply String.eqb_neq in Hne. specialize (IH Hk).
  destruct p0 as [| | | |[f0|] ps0 fr0]; try exact IH;
    simpl in *; by rewrite Hne.
Qed.

(** Reading a property of a rebound container.  Where the container
    holds a function, the copy holds that function bound to the instance;
    where it holds an object, the copy holds the rebound object; every other
    property, the flag [_ns] included, is absent from the copy. *)
Lemma get_rebind (self : loc) (c : option func) (ps : list (string * node))
  (fr : bool) (k : string) :
  NoDup (map fst ps) →
  get (rebind self (NObj c ps fr)) k
  = match lookup_prop k ps with
    | Some (NObj (Some f) _ _) => bind f self
    | Some (NObj None ps' fr') => rebind self (NObj None ps' fr')
    | _ => NUndefined
    end.
Proof.
  induction ps as [|[k0 p0] ps IH]; [done|].
  intros [Hk0 Hnd]%NoDup_cons. specialize (IH Hnd). simpl in Hk0.
  cbn [lookup_prop]. destruct (String.eqb k k0) eqn:Hk.
  - apply String.eqb_eq in Hk as ->.
    destruct p0 as [| | | |[f0|] ps0 fr0];
      try (by apply (get_rebind_absent self c ps fr k0 Hk0));
      simpl; by rewrite String.eqb_refl.
  - rewrite <- IH.
    destruct p0 as [| | | |[f0|] ps0 fr0]; try done; simpl; by rewrite Hk.
Qed.

(** X10: a function held by a container is replaced by a bound function
    that has none of the properties of the original: whatever was attached
    to the function (a method [a.b.c] attached to the method [a.b]) cannot
    be reached through the copy by any chain of property reads. *)
Theorem nothing_beneath_bound (self : loc) (c : option func)
  (ps ps' : list (string * node)) (fr fr' : bool) (k : string) (f : func)
  (path : list string) :
  NoDup (map fst ps) →
  lookup_prop k ps = Some (NObj (Some f) ps' fr') →
  path ≠ [] →
  get (rebind self (NObj c ps fr)) k = bind f self
  ∧ primitive (reach (get (rebind self (NObj c ps fr)) k) path).
Proof.
  intros Hnd Hk Hpath. rewrite (get_rebind self c ps fr k Hnd), Hk.
  split; [done|]. destruct path as [|k1 path]; [done|].
  change (reach (bind f self) (k1 :: path))
    with (reach (get (bind f self) k1) path).
  apply reach_primitive. unfold bind, get. simpl.
  by destruct (String.eqb k1 "length"), (String.eqb k1 "name").
Qed.

Lemma nothing_beneath_bound_witness :
  reach method_with_member ["b"; "c"] = fn (FStub "a.b.c" 0 false)
  ∧ reach (rebind 0%nat method_with_member) ["b"; "c"] = NUndefined.
Proof.
  split; [reflexivity|].
  assert (Hnd : NoDup (map fst [("_ns", NBool true);
                                ("b", NObj (Some (FStub "a.b" 0 false))
                                        [("c", fn (FStub "a.b.c" 0 false))]
                                        false)])) by by_compute.
  assert (Hpath : ["c"] ≠ @nil string) by done.
  destruct (nothing_beneath_bound 0%nat None _ _ false false "b" _ ["c"]
              Hnd eq_refl Hpath) as [Hget _].
  change (reach (rebind 0%nat method_with_member) ["b"; "c"])
    with (reach (get (rebind 0%nat method_with_member) "b") ["c"]).
  unfold method_with_member. rewrite Hget. reflexivity.
Defined.

(** ** The instance a constructor call leaves *)

Lemma elem_lookup_prop (k : string) (v : node) (ps : list (string * node)) :
  NoDup (map fst ps) → (k, v) ∈ ps → lookup_prop k ps = Some v.
Proof.
  induction ps as [|[k0 v0] ps IH]; [by intros _ ?%elem_of_nil|].
  intros [Hk0 Hnd]%NoDup_cons [[= -> ->]|Hin]%elem_of_cons; simpl.
  - by rewrite String.eqb_refl.
  - destruct (String.eqb k k0) eqn:Hk; [|by apply IH].
    apply String.eqb_eq in Hk as ->. exfalso. apply Hk0.
    apply list_elem_of_fmap. by exists (k0, v).
Qed.

(** Everything the loop over the prototype stores is a rebound
    container. *)
Lemma rebind_all_inv (self : loc) (proto acc : list (string * node))
  (k : string) (v' : node) :
  lookup_prop k (foldl (rebind_step self) acc proto) = Some v' →
  lookup_prop k acc = Some v'
  ∨ ((k ∉ ["defaultTransport"; "rpc"])
     ∧ ∃ v, (k, v) ∈ proto ∧ truthy_node (get v "_ns") = true
            ∧ v' = rebind self v).
Proof.
  revert acc. induction proto as [|[k0 v0] proto IH]; intros acc; simpl;
    [by left|].
  intros [Hacc|(Hk & v & Hin & Hns & ->)]%IH.
  - case_bool_decide as Hsh; [by left|].
    destruct (truthy_node v0 && truthy_node (get v0 "_ns")) eqn:Hc;
      [|by left].
    destruct (decide (k0 = k)) as [->|Hne].
    + rewrite lookup_set_prop_eq in Hacc. injection Hacc as <-.
      right. split; [done|]. exists v0.
      apply andb_true_iff in Hc as [_ Hc].
      split; [by apply elem_of_cons; left|done].
    + rewrite lookup_set_prop_ne in Hacc by done. by left.
  - right. split; [done|]. exists v.
    split; [by apply elem_of_cons; right|done].
Qed.

(** X11: the properties the constructor's loop adds to a new instance are
    exactly the rebound copies of the prototype's namespace containers.
    Every other member of the prototype with a name other than
    [defaultTransport] and [rpc] (a method registered without namespace,
    [useHTTP], [on], ...) is read through the prototype as it is, not
    bound.  Under those two names the instance has the fields the
    constructor assigned, the transport name and the tunnel, whatever the
    prototype holds there. *)
Theorem instance_own_are_containers (localName : string) (md : Metadata)
  (cls : node) (fuel : nat) (url ssl : jsval) (h h' : heap) (self : loc)
  (i : instance) (k : string) :
  load localName md = Some cls →
  new_Proxy fuel cls url ssl h = Some (Ok (self, h')) →
  h' !! self = Some i →
  (∀ v', lookup_prop k (own i) = Some v'
         ↔ (k ∉ ["defaultTransport"; "rpc"])
           ∧ ∃ v, lookup_prop k (prototype cls) = Some v
                  ∧ truthy_node (get v "_ns") = true
                  ∧ v' = rebind self v)
  ∧ (k ∉ ["defaultTransport"; "rpc"] →
     ∀ v, lookup_prop k (prototype cls) = Some v →
          truthy_node (get v "_ns") = false →
          member_value cls i k = Some v)
  ∧ member_value cls i "defaultTransport" = Some (NStr "http")
  ∧ member_value cls i "rpc" = None.
Proof.
  intros Hload Hnew Hi.
  pose proof (load_wf _ _ _ Hload) as Hwf.
  destruct (prototype_wf cls Hwf) as [Hnd _].
  destruct (new_Proxy_constructed _ _ _ _ _ _ _ _ Hnew Hi) as (-> & -> & _).
  assert (Hiff : ∀ v', lookup_prop k (rebind_all (length h) (prototype cls))
                       = Some v'
                 ↔ (k ∉ ["defaultTransport"; "rpc"])
                   ∧ ∃ v, lookup_prop k (prototype cls) = Some v
                          ∧ truthy_node (get v "_ns") = true
                          ∧ v' = rebind (length h) v).
  { intros v'. split.
    - intros [?|(Hk & v & Hin & Hns & ->)]%rebind_all_inv; [done|].
      split; [done|]. exists v. split; [by apply elem_lookup_prop|done].
    - intros (Hk & v & Hv & Hns & ->).
      by apply rebind_all_container. }
  split; [exact Hiff|]. split; [|done].
  intros Hk v Hv Hns. rewrite member_value_constructed by done.
  destruct (lookup_prop k (rebind_all (length h) (prototype cls)))
    as [v'|] eqn:Hown; [|by rewrite Hv].
  destruct (proj1 (Hiff v') eq_refl) as (_ & v0 & Hv0 & Hns0 & _).
  rewrite Hv in Hv0. injection Hv0 as <-. by rewrite Hns in Hns0.
Qed.

Lemma instance_own_are_containers_witness :
  ∃ cls h i,
    load "Tester" nested = Some cls
    ∧ new_Proxy 0 cls (VStr "http://host") VUndefined [] = Some (Ok (0%nat, h))
    ∧ h !! 0%nat = Some i
    ∧ member_value cls i "top" = Some (fn (FStub "top" 0 false))
    ∧ member_value cls i "useWS" = Some (fn (FMember UseWS)).
Proof.
  destruct (load "Tester" nested) as [cls|] eqn:Hload;
    [|by vm_compute in Hload].
  destruct (new_Proxy 0 cls (VStr "http://host") VUndefined [])
    as [[[l h]|e]|] eqn:Hnew;
    [|rewrite new_Proxy_eq in Hnew; by vm_compute in Hnew..].
  assert (l = 0%nat) as ->.
  { rewrite new_Proxy_eq in Hnew. simpl in Hnew. by injection Hnew as <- _. }
  destruct (h !! 0%nat) as [i|] eqn:Hi.
  2: { rewrite new_Proxy_eq in Hnew. simpl in Hnew. injection Hnew as <-.
       by vm_compute in Hi. }
  assert (Hcls : cls = default NUndefined (load "Tester" nested))
    by (by rewrite Hload).
  assert (Htop : lookup_prop "top" (prototype cls)
                 = Some (fn (FStub "top" 0 false))).
  { rewrite Hcls. by vm_compute. }
  assert (Hws : lookup_prop "useWS" (prototype cls)
                = Some (fn (FMember UseWS))).
  { rewrite Hcls. by vm_compute. }
  assert (Hk1 : "top" ∉ ["defaultTransport"; "rpc"]) by by_compute.
  assert (Hk2 : "useWS" ∉ ["defaultTransport"; "rpc"]) by by_compute.
  exists cls, h, i. split; [done|]. split; [done|]. split; [done|]. split.
  - exact (proj1 (proj2 (instance_own_are_containers "Tester" nested cls 0 _ _
                           [] h 0%nat i "top" Hload Hnew Hi)) Hk1 _ Htop
                 eq_refl).
  - exact (proj1 (proj2 (instance_own_are_containers "Tester" nested cls 0 _ _
                           [] h 0%nat i "useWS" Hload Hnew Hi)) Hk2 _ Hws
                 eq_refl).
Defined.

(** X12: [new Proxy(url, sslSettings)] with an accepted URL puts the new
    instance behind the existing ones and leaves those unchanged; the new
    instance has a tunnel made from the URL and the settings, no listener,
    and the tunnel has been asked for no call. *)
Theorem new_Proxy_is_fresh (fuel : nat) (cls : node) (url ssl : jsval)
  (h h' : heap) (self : loc) :
  new_Proxy fuel cls url ssl h = Some (Ok (self, h')) →
  self = length h
  ∧ length h' = S (length h)
  ∧ (∀ l, (l < length h)%nat → h' !! l = h !! l)
  ∧ ∃ i, h' !! self = Some i
         ∧ rpc i = Some (new_tunnel url ssl)
         ∧ listeners i = ∅
         ∧ calls h' self = [].
Proof.
  rewrite new_Proxy_eq. destruct (nonempty_string url); [|done].
  intros [= <- <-]. split; [done|].
  split. { rewrite length_app. simpl. lia. }
  split. { intros l Hl. by apply lookup_app_l. }
  exists (constructed cls (length h) url ssl).
  unfold calls. rewrite lookup_app_r by lia. rewrite Nat.sub_diag. done.
Qed.

Lemma new_Proxy_is_fresh_witness :
  ∃ h', new_Proxy 0 (template_class "Proxy") (VStr "http://host") VUndefined
          one_proxy = Some (Ok (1%nat, h'))
        ∧ h' !! 0%nat = one_proxy !! 0%nat.
Proof.
  destruct (new_Proxy 0 (template_class "Proxy") (VStr "http://host")
              VUndefined one_proxy) as [[[l h']|e]|] eqn:Hnew;
    [|by vm_compute in Hnew..].
  destruct (new_Proxy_is_fresh 0 _ _ _ one_proxy h' l Hnew)
    as (-> & _ & Hold & _).
  exists h'. split; [reflexivity|]. apply Hold. simpl. lia.
Defined.

(** ** Calls change one instance *)

Lemma rpc_send_frame (l : loc) (c : rpc_call) (h h' : heap) :
  rpc_send l c h = Ok h' →
  length h' = length h ∧ ∀ l', l' ≠ l → h' !! l' = h !! l'.
Proof.
  unfold rpc_send. destruct (h !! l) as [i|]; [|done].
  destruct (rpc i); [|done]. intros [= <-].
  split; [apply length_insert|].
  intros l' Hne. by apply list_lookup_insert_ne.
Qed.

Lemma insert_frame (l : loc) (i : instance) (h : heap) :
  length (<[l := i]> h) = length h
  ∧ ∀ l', l' ≠ l → <[l := i]> h !! l' = h !! l'.
Proof.
  split; [apply length_insert|].
  intros l' Hne. by apply list_lookup_insert_ne.
Qed.

Lemma member_call_frame (m : member) (l : loc) (args : list jsval)
  (h h' : heap) (r : jsval) :
  member_call m l args h = Some (Ok (r, h')) →
  length h' = length h ∧ ∀ l', l' ≠ l → h' !! l' = h !! l'.
Proof.
  destruct m; simpl.
  - unfold useHTTP. destruct (h !! l); [|done]. intros [= _ <-].
    apply insert_frame.
  - unfold useWS. destruct (h !! l); [|done]. intros [= _ <-].
    apply insert_frame.
  - unfold close. destruct (h !! l) as [i|]; [|done]. simpl.
    destruct (rpc i); [|done]. intros [= _ <-]. apply insert_frame.
  - destruct (arg 0 args); try done. unfold addListener.
    destruct (h !! l) as [i|]; [|done]. simpl.
    destruct (length (listeners_of i s) =? 0)%nat.
    + destruct (rpc_send l _ h) as [h1|] eqn:Hs; [|done].
      destruct (rpc_send_frame _ _ _ _ Hs) as [Hlen Hfr].
      destruct (h1 !! l); [|done]. intros [= _ <-].
      destruct (insert_frame l (EventEmitter_addListener s (arg 1 args) i0) h1)
        as [Hlen' Hfr'].
      split; [congruence|]. intros l' Hne. rewrite Hfr' by done. by apply Hfr.
    + destruct (h !! l); [|done]. intros [= _ <-]. apply insert_frame.
  - destruct (arg 0 args); try done. unfold removeListener.
    destruct (h !! l) as [i|]; [|done]. simpl.
    set (i1 := EventEmitter_removeListener s (arg 1 args) i).
    destruct (insert_frame l i1 h) as [Hlen Hfr].
    destruct (length (listeners_of i1 s) =? 0)%nat.
    + destruct (rpc_send l _ _) as [h2|] eqn:Hs; [|done].
      destruct (rpc_send_frame _ _ _ _ Hs) as [Hlen' Hfr'].
      intros [= _ <-]. split; [congruence|].
      intros l' Hne. rewrite Hfr' by done. by apply Hfr.
    + by intros [= _ <-].
  - destruct (arg 0 args); try done. unfold removeAllListeners.
    destruct (h !! l) as [i|]; [|done]. simpl.
    set (i1 := EventEmitter_removeAllListeners s i).
    destruct (insert_frame l i1 h) as [Hlen Hfr].
    destruct (rpc_send l _ _) as [h2|] eqn:Hs; [|done].
    destruct (rpc_send_frame _ _ _ _ Hs) as [Hlen' Hfr'].
    intros [= _ <-]. split; [congruence|].
    intros l' Hne. rewrite Hfr' by done. by apply Hfr.
Qed.

(** X13: a call that returns changes at most one instance, the one the
    function runs on (for a bound function the instance it was bound to,
    whatever the receiver), and creates none: every other proxy keeps its
    transport, its listeners and the record of its tunnel. *)
Theorem call_changes_one_instance (f : func) (this : jsval)
  (args : list jsval) (h h' : heap) (r : jsval) :
  call_func f this args h = Some (Ok (r, h')) →
  length h' = length h
  ∧ ∀ l', runs_on f this ≠ VRef l' → h' !! l' = h !! l'.
Proof.
  revert this.
  induction f as [n|m|struct|m n er|m formals er|t IH self]; intros this;
    simpl.
  - done.
  - destruct this; try done. intros Hc.
    destruct (member_call_frame _ _ _ _ _ _ Hc) as [Hlen Hfr].
    split; [done|]. intros l' Hne. apply Hfr. congruence.
  - by intros [= _ <-].
  - unfold stub_call. destruct this as [| | | | | | | |l]; try done.
    destruct (h !! l) as [i|]; [|done].
    destruct (rpc_send l _ h) as [h1|] eqn:Hs; [|done].
    destruct (rpc_send_frame _ _ _ _ Hs) as [Hlen Hfr].
    intros [= _ <-]. split; [done|]. intros l' Hne. apply Hfr. congruence.
  - unfold shadowing_stub_call.
    destruct (shadowing_stub_request m formals er _ args) as [[c|e]|];
      [|done..].
    destruct this as [| | | | | | | |l]; try done.
    destruct (h !! l) as [i|]; [|done].
    destruct (rpc_send l _ h) as [h1|] eqn:Hs; [|done].
    destruct (rpc_send_frame _ _ _ _ Hs) as [Hlen Hfr].
    intros [= _ <-]. split; [done|]. intros l' Hne. apply Hfr. congruence.
  - apply IH.
Qed.

Lemma call_changes_one_instance_witness :
  ∃ h', call_func (FBound (FStub "sum" 2 true) 0%nat) (VRef 1%nat)
          [VNum 1; VNum 2] two_proxies = Some (Ok (VUndefined, h'))
        ∧ h' !! 1%nat = two_proxies !! 1%nat.
Proof.
  destruct (call_func (FBound (FStub "sum" 2 true) 0%nat) (VRef 1%nat)
              [VNum 1; VNum 2] two_proxies) as [[[r h']|e]|] eqn:Hc;
    [|by vm_compute in Hc..].
  assert (r = VUndefined) as -> by (vm_compute in Hc; congruence).
  exists h'. split; [reflexivity|].
  apply (proj2 (call_changes_one_instance _ _ _ _ _ _ Hc)). by simpl.
Defined.

(** ** Member chains and namespace paths *)

Lemma segments_join (s : string) : join_dots (segments s) = s.
Proof.
  induction s as [|a s IH]; [done|]. simpl.
  destruct (Ascii.eqb a ".") eqn:Ha.
  - apply Ascii.eqb_eq in Ha as ->.
    destruct (segments s) as [|x xs] eqn:Hs; [by apply segments_nonempty in Hs|].
    change (join_dots ("" :: x :: xs)) with ("" +:+ "." +:+ join_dots (x :: xs)).
    by rewrite IH.
  - destruct (segments s) as [|x xs] eqn:Hs; [by apply segments_nonempty in Hs|].
    destruct xs as [|y ys].
    + change (String a x = String a s). f_equal. exact IH.
    + change (String a (x +:+ "." +:+ join_dots (y :: ys)) = String a s).
      f_equal. exact IH.
Qed.

Lemma segments_inj (s s' : string) : segments s = segments s' → s = s'.
Proof.
  intros H. by rewrite <- (segments_join s), H, segments_join.
Qed.

Lemma segments_last_index (s : string) :
  match last_index "." s with
  | None => segments s = [s]
  | Some i => ∃ x, segments s = segments (String.substring 0 i s) ++ [x]
  end.
Proof.
  induction s as [|a s IH]; simpl; [done|].
  destruct (last_index "." s) as [i|] eqn:Hi.
  - destruct IH as [x Hx]. exists x. rewrite Hx. cbn [segments].
    destruct (Ascii.eqb a "."); [done|].
    destruct (segments (String.substring 0 i s)) as [|y ys] eqn:Hy;
      [by apply segments_nonempty in Hy|].
    done.
  - destruct (Ascii.eqb a ".") eqn:Ha.
    + exists s. simpl. by rewrite IH.
    + by rewrite IH.
Qed.

Lemma parent_None_segments (s : string) :
  parent s = None → segments s = [s].
Proof.
  unfold parent, lastIndexOf. pose proof (segments_last_index s) as H.
  destruct (last_index "." s) as [i|]; [|done].
  destruct (Z.of_nat i =? -1) eqn:Hz; [|done].
  apply Z.eqb_eq in Hz. lia.
Qed.

Lemma parent_Some_segments (s p : string) :
  parent s = Some p → ∃ x, segments s = segments p ++ [x].
Proof.
  unfold parent, lastIndexOf, substr.
  pose proof (segments_last_index s) as H.
  destruct (last_index "." s) as [i|]; [|done].
  destruct (Z.of_nat i =? -1); [done|]. intros [= <-].
  rewrite Nat2Z.id. exact H.
Qed.

Lemma implied_segments (s p : string) :
  implied s p → ∃ suffix, suffix ≠ [] ∧ segments s = segments p ++ suffix.
Proof.
  induction 1 as [s p Hp|s p q Hp _ (suffix & Hne & Hq)].
  - apply parent_Some_segments in Hp as [x Hx]. by exists [x].
  - apply parent_Some_segments in Hp as [x Hx]. exists (suffix ++ [x]).
    split; [by destruct suffix|]. by rewrite Hx, Hq, app_assoc.
Qed.

(** A chain that is a prefix of another names the same path or one of its
    ancestors. *)
Lemma segments_prefix_implied (q r : string) :
  segments q `prefix_of` segments r → q = r ∨ implied r q.
Proof.
  remember (String.length r) as n eqn:Hn. revert r Hn.
  induction n as [n IH] using lt_wf_ind. intros r -> [suffix Hs].
  destruct (parent r) as [r1|] eqn:Hr.
  - destruct (parent_Some_segments _ _ Hr) as [x Hx].
    destruct (decide (suffix = [])) as [->|Hne].
    + left. apply segments_inj. by rewrite Hs, app_nil_r.
    + right.
      assert (Hpre : segments q `prefix_of` segments r1).
      { destruct (exists_last Hne) as (suffix' & y & ->).
        rewrite Hx, app_assoc in Hs.
        apply app_inj_tail in Hs as [Hs _]. by exists suffix'. }
      destruct (IH _ (parent_shorter _ _ Hr) r1 eq_refl Hpre) as [->|Himp].
      * by apply implied_parent.
      * by eapply implied_further.
  - left. apply segments_inj. rewrite (parent_None_segments _ Hr) in Hs |- *.
    destruct (segments q) as [|y ys] eqn:Hq; [by apply segments_nonempty in Hq|].
    destruct ys, suffix; simpl in Hs; try done.
    all: injection Hs as Hs; try done; by destruct ys.
Qed.

(** ** Order in a list without repetition *)

Lemma NoDup_split_unique {A} (x : A) (l1 l2 l1' l2' : list A) :
  NoDup (l1 ++ x :: l2) → l1 ++ x :: l2 = l1' ++ x :: l2' →
  l1 = l1' ∧ l2 = l2'.
Proof.
  revert l1'. induction l1 as [|a l1 IH]; intros l1' Hnd Heq.
  - destruct l1' as [|a' l1']; simpl in *.
    + by injection Heq as ->.
    + injection Heq as <- ->. apply NoDup_cons in Hnd as [Hx _].
      exfalso. apply Hx. apply elem_of_app. right. by apply elem_of_cons; left.
  - destruct l1' as [|a' l1']; simpl in *.
    + injection Heq as -> <-. apply NoDup_cons in Hnd as [Hx _].
      exfalso. apply Hx. apply elem_of_app. right. by apply elem_of_cons; left.
    + injection Heq as <- Heq. apply NoDup_cons in Hnd as [_ Hnd].
      destruct (IH l1' Hnd Heq) as [-> ->]. done.
Qed.

Lemma before_trans {A} (a b c : A) (l : list A) :
  NoDup l → before a b l → before b c l → before a c l.
Proof.
  intros Hnd (l1 & l2 & l3 & Hab) (l1' & l2' & l3' & Hbc).
  assert (Hsplit : (l1 ++ a :: l2) ++ b :: l3 = l1' ++ b :: l2' ++ c :: l3').
  { rewrite <- Hbc, Hab. by rewrite <- app_assoc. }
  assert (Hnd' : NoDup ((l1 ++ a :: l2) ++ b :: l3)).
  { rewrite <- app_assoc. simpl. by rewrite <- Hab. }
  destruct (NoDup_split_unique _ _ _ _ _ Hnd' Hsplit) as [_ ->].
  exists l1, (l2 ++ b :: l2'), l3'. rewrite Hab.
  by rewrite <- !app_assoc.
Qed.

(** In a list without repetition, what comes before the element at a cut
    lies in the part before the cut. *)
Lemma before_in_prefix {A} (a x : A) (front back : list A) :
  NoDup (front ++ x :: back) → before a x (front ++ x :: back) → a ∈ front.
Proof.
  intros Hnd (l1 & l2 & l3 & Heq).
  assert (Hsplit : front ++ x :: back = (l1 ++ a :: l2) ++ x :: l3).
  { rewrite Heq. by rewrite <- app_assoc. }
  destruct (NoDup_split_unique _ _ _ _ _ Hnd Hsplit) as [-> _].
  apply elem_of_app. right. by apply elem_of_cons; left.
Qed.

Lemma not_before_in_prefix {A} (a x : A) (front back : list A) :
  NoDup (front ++ x :: back) → a ∈ front →
  ¬ before x a (front ++ x :: back).
Proof.
  intros Hnd (f1 & f2 & ->)%list_elem_of_split Hb.
  assert (Hnd' : NoDup (f1 ++ a :: f2 ++ x :: back)).
  { by rewrite <- app_assoc in Hnd. }
  rewrite <- app_assoc in Hb. simpl in Hb.
  apply (before_in_prefix x a f1 (f2 ++ x :: back) Hnd') in Hb.
  apply NoDup_app in Hnd' as (_ & Hdisj & _).
  apply (Hdisj x Hb). apply elem_of_cons; right.
  apply elem_of_app. right. by apply elem_of_cons; left.
Qed.

(** Ancestors first: in the output of the namespace scriptlets the stub of
    every ancestor of an emitted path comes before the stub of the path. *)
Lemma ancestors_first (st : gen) (p q : string) :
  stubs_inv st → ENamespace p ∈ out st → implied p q →
  q ∈ Object_prototype_keys
  ∨ before (ENamespace q) (ENamespace p) (out st).
Proof.
  intros Hinv Hp Himp. induction Himp as [s p Hpar|s p q Hpar Himp IH].
  - by apply (inv_parent st Hinv).
  - destruct (inv_parent st Hinv s p Hp Hpar) as [Hk|Hb].
    + apply Object_prototype_keys_top in Hk.
      inversion Himp; congruence.
    + assert (Hin : ENamespace p ∈ out st).
      { destruct Hb as (l1 & l2 & l3 & ->).
        apply elem_of_app. right. by apply elem_of_cons; left. }
      destruct (IH Hin) as [?|Hb']; [by left|]. right.
      by apply (before_trans _ (ENamespace p) _ _ (inv_nodup st Hinv)).
Qed.

(** ** Assignments along a member chain *)

Lemma assign_snoc (pre : list string) (x : string) (v o : node) :
  assign (pre ++ [x]) v o = update pre (put x v) o.
Proof. unfold assign. by rewrite last_snoc, removelast_last. Qed.

Lemma resolve_reach (v w : node) (path : list string) :
  resolve v path = Some w → reach v path = w.
Proof.
  revert v. induction path as [|k path IH]; intros v; simpl.
  - by intros [= <-].
  - destruct v as [| | | |[f|] ps fr]; try done.
    destruct (lookup_prop k ps) as [child|] eqn:Hk; [|done]. simpl.
    rewrite Hk. apply IH.
Qed.

Lemma prefix_snoc_inv (r pre : list string) (x : string) :
  r `prefix_of` (pre ++ [x]) → r `prefix_of` pre ∨ r = pre ++ [x].
Proof.
  intros [suffix Hs]. destruct (decide (suffix = [])) as [->|Hne].
  - right. by rewrite app_nil_r in Hs.
  - left. destruct (exists_last Hne) as (suffix' & y & ->).
    rewrite app_assoc in Hs. apply app_inj_tail in Hs as [-> _].
    by exists suffix'.
Qed.

(** The effect of [chain.x = v] on a store in which the chain leads,
    through plain objects, to a plain object that is not frozen: the
    assignment goes through; the extended chain then leads to [v]; the
    objects along the chain stay plain and keep their flag; and every chain
    that neither leads to the place written nor passes through it leads
    where it did. *)
Lemma update_put_effect (pre : list string) (x : string) (v P : node)
  (qs : list (string * node)) :
  truthy_node v = true →
  String.eqb x "__proto__" = false →
  resolve P pre = Some (NObj None qs false) →
  ∃ P', update pre (put x v) P = Some P'
    ∧ truthy_node P' = true
    ∧ resolve P' (pre ++ [x]) = Some v
    ∧ (∀ r w, r `prefix_of` pre → resolve P r = Some w →
          ∃ w', resolve P' r = Some w'
                ∧ (plain_object w → plain_object w')
                ∧ (flagged w → flagged w'))
    ∧ (∀ r, ¬ r `prefix_of` (pre ++ [x]) → ¬ (pre ++ [x]) `prefix_of` r →
          resolve P' r = resolve P r).
Proof.
  intros Hv Hx. revert P. induction pre as [|k pre IH]; intros P.
  - simpl. intros [= ->]. unfold put. rewrite Hx.
    rewrite bool_decide_eq_false_2 by (by intros [[? [=]] _]).
    eexists. split; [done|]. split; [done|]. split.
    { simpl. by rewrite lookup_set_prop_eq. }
    split.
    + intros r w [suffix Hr] Hw.
      destruct r; [|done]. simpl in Hw. injection Hw as <-.
      eexists. split; [done|]. split; [intros _; by eexists|].
      unfold flagged. simpl. destruct (String.eqb "_ns" x) eqn:Hnx.
      * apply String.eqb_eq in Hnx as <-. by rewrite lookup_set_prop_eq.
      * apply String.eqb_neq in Hnx.
        by rewrite lookup_set_prop_ne by done.
    + intros r Hr1 Hr2. destruct r as [|k r].
      { exfalso. apply Hr1. by exists [x]. }
      simpl. destruct (decide (x = k)) as [->|Hne].
      { exfalso. apply Hr2. by exists r. }
      by rewrite lookup_set_prop_ne.
  - simpl. destruct P as [| | | |[f|] ps fr]; try done.
    destruct (lookup_prop k ps) as [child|] eqn:Hk; [|done]. simpl.
    intros Hres.
    destruct (IH child Hres) as (child' & Hup & Htr & Hnew & Hpre & Hframe).
    rewrite Hup. simpl. eexists. split; [done|]. split; [done|]. split.
    { simpl. by rewrite lookup_set_prop_eq. }
    split.
    + intros r w Hr Hw. destruct r as [|k' r].
      * simpl in Hw. injection Hw as <-. eexists. split; [done|].
        split. { intros [ps0 [= -> ->]]. by eexists. }
        unfold flagged. simpl. destruct (String.eqb "_ns" k) eqn:Hnk.
        -- apply String.eqb_eq in Hnk as <-. by rewrite lookup_set_prop_eq.
        -- apply String.eqb_neq in Hnk.
           by rewrite lookup_set_prop_ne by done.
      * destruct Hr as [suffix Hr]. injection Hr as <- Hr.
        simpl in Hw |- *. rewrite Hk in Hw. simpl in Hw.
        rewrite lookup_set_prop_eq. simpl.
        apply (Hpre r w); [by exists suffix|done].
    + intros r Hr1 Hr2. destruct r as [|k' r].
      { exfalso. apply Hr1. by eexists. }
      simpl. destruct (decide (k = k')) as [<-|Hne].
      * rewrite lookup_set_prop_eq, Hk. simpl. apply Hframe.
        -- intros [suffix Hs]. apply Hr1. exists suffix. simpl. by rewrite Hs.
        -- intros [suffix Hs]. apply Hr2. exists suffix. simpl. by rewrite Hs.
      * by rewrite lookup_set_prop_ne.
Qed.

(** ** Loading the generated source *)

Lemma run_app (a b : list fragment) (cls : node) :
  run (a ++ b) cls = run a cls ≫= run b.
Proof.
  revert cls. induction a as [|fr a IH]; intros cls; simpl; [done|].
  destruct (exec fr cls); simpl; [apply IH|done].
Qed.

Lemma forallb_Forall {A} (f : A → bool) (l : list A) :
  forallb f l = true → Forall (fun x => f x = true) l.
Proof.
  induction l as [|x l IH]; simpl; [constructor|].
  intros [? ?]%andb_true_iff. constructor; auto.
Qed.

Lemma parses_valid (path : list string) :
  Forall (fun x => valid_segment x = true) path → parses path = true.
Proof.
  induction 1 as [|x path Hx _ IH]; simpl; [done|].
  unfold valid_segment in Hx. apply andb_true_iff in Hx as [Hx _].
  by rewrite Hx.
Qed.

(** The statements emitted for the types run, and leave the prototype
    alone. *)
Lemma generateTypes_run (ts : list (string * TypeDef)) (c : option func)
  (ps : list (string * node)) :
  forallb (fun kt => type_ok (snd kt)) ts = true →
  ∃ ps', run (concat (map (fun kt => generateType (snd kt)) ts))
             (NObj c ps false) = Some (NObj c ps' false)
         ∧ lookup_prop "prototype" ps' = lookup_prop "prototype" ps.
Proof.
  revert ps. induction ts as [|[key t] ts IH]; intros ps.
  - intros _. by exists ps.
  - cbn [map concat snd forallb].
    intros [Ht Hts]%andb_true_iff. rewrite run_app.
    destruct t as [T struct|T fields].
    + cbn [type_ok] in Ht.
      apply andb_true_iff in Ht as [[HT Hproto]%andb_true_iff Hall].
      apply forallb_Forall in Hall.
      rewrite (enum_type_run T struct c ps HT Hall). simpl.
      destruct (IH (set_prop T (NObj (Some (FEnum struct)) (enum_props struct)
                                  true) ps) Hts) as (ps' & Hrun & Hlook).
      exists ps'. split; [done|]. rewrite Hlook.
      apply lookup_set_prop_ne. apply negb_true_iff, String.eqb_neq in Hproto.
      done.
    + by apply IH.
Qed.

(** An assignment below [Proxy.prototype], given what it does to the
    prototype object. *)
Lemma assign_prototype (pre : list string) (x : string) (v P P' : node)
  (c : option func) (ps : list (string * node)) :
  lookup_prop "prototype" ps = Some P →
  update pre (put x v) P = Some P' →
  assign ("prototype" :: pre ++ [x]) v (NObj c ps false)
  = Some (NObj c (set_prop "prototype" P' ps) false).
Proof.
  intros HP Hup.
  change ("prototype" :: pre ++ [x]) with (("prototype" :: pre) ++ [x]).
  rewrite assign_snoc, update_cons. by rewrite HP, Hup.
Qed.

(** The namespace stubs run in emission order: every stub finds its
    parent container in place and puts a container at its own path. *)
Lemma namespace_phase (back front : list fragment) (c : option func)
  (ps : list (string * node)) (P : node) :
  NoDup (front ++ back) →
  (∀ x, x ∈ front ++ back →
        ∃ p, x = ENamespace p
             ∧ Forall (fun s => valid_segment s = true) (segments p)) →
  (∀ p q, ENamespace p ∈ front ++ back → implied p q →
          before (ENamespace q) (ENamespace p) (front ++ back)) →
  lookup_prop "prototype" ps = Some P → plain_object P →
  (∀ p, ENamespace p ∈ front →
        ∃ w, resolve P (segments p) = Some w ∧ plain_object w ∧ flagged w) →
  ∃ ps' P',
    run back (NObj c ps false) = Some (NObj c ps' false)
    ∧ lookup_prop "prototype" ps' = Some P' ∧ plain_object P'
    ∧ ∀ p, ENamespace p ∈ front ++ back →
           ∃ w, resolve P' (segments p) = Some w
                ∧ plain_object w ∧ flagged w.
Proof.
  revert front ps P.
  induction back as [|x back IH]; intros front ps P Hnd Hshape Hanc HP Hplain
    Hfront.
  - exists ps, P. rewrite app_nil_r. done.
  - destruct (Hshape x) as (p & -> & Hvalid).
    { apply elem_of_app. right. by apply elem_of_cons; left. }
    assert (Hchain : ∃ pre xk qs,
              segments p = pre ++ [xk]
              ∧ resolve P pre = Some (NObj None qs false)).
    { destruct (parent p) as [q|] eqn:Hq.
      - destruct (parent_Some_segments _ _ Hq) as [xk Hxk].
        assert (Hb : before (ENamespace q) (ENamespace p)
                            (front ++ ENamespace p :: back)).
        { apply Hanc; [|by apply implied_parent].
          apply elem_of_app. right. by apply elem_of_cons; left. }
        apply (before_in_prefix _ _ _ _ Hnd) in Hb.
        destruct (Hfront q Hb) as (w & Hw & [qs ->] & _).
        by exists (segments q), xk, qs.
      - destruct Hplain as [qs ->].
        exists [], p, qs. by rewrite (parent_None_segments _ Hq). }
    destruct Hchain as (pre & xk & qs & Hseg & Hpre).
    assert (Hxk : String.eqb xk "__proto__" = false).
    { rewrite Hseg in Hvalid. apply Forall_app in Hvalid as [_ Hxk].
      apply Forall_inv in Hxk. unfold valid_segment in Hxk.
      apply andb_true_iff in Hxk as [_ Hxk]. by apply negb_true_iff. }
    destruct (update_put_effect pre xk container P qs eq_refl Hxk Hpre)
      as (P' & Hup & _ & Hnew & Hkeep & Hframe).
    assert (Hexec : exec (ENamespace p) (NObj c ps false)
                    = Some (NObj c (set_prop "prototype" P' ps) false)).
    { cbn [exec]. unfold guarded. rewrite (parses_valid _ Hvalid), Hseg.
      by apply (assign_prototype pre xk container P P'). }
    destruct (IH (front ++ [ENamespace p]) (set_prop "prototype" P' ps) P')
      as (ps' & P'' & Hrun & HP'' & Hplain'' & Hall).
    + by rewrite <- app_assoc.
    + intros x. rewrite <- app_assoc. apply Hshape.
    + intros p0 q0. rewrite <- app_assoc. apply Hanc.
    + apply lookup_set_prop_eq.
    + destruct (Hkeep [] P) as (w' & Hw' & Hpl & _);
        [by exists pre|done|].
      simpl in Hw'. injection Hw' as <-. by apply Hpl.
    + intros p' [Hp'|Hp']%elem_of_app.
      * destruct (Hfront p' Hp') as (w & Hw & Hwp & Hwf).
        destruct (decide (segments p `prefix_of` segments p')) as [Hpp|Hpp].
        { apply segments_prefix_implied in Hpp as [->|Himp].
          - exists container. rewrite Hseg. split; [done|].
            split; [by eexists|done].
          - exfalso.
            apply (not_before_in_prefix (ENamespace p') (ENamespace p)
                     front back Hnd Hp').
            apply Hanc; [|done]. apply elem_of_app. by left. }
        destruct (decide (segments p' `prefix_of` pre ++ [xk])) as [Hq|Hq].
        { apply prefix_snoc_inv in Hq as [Hq|Hq].
          - destruct (Hkeep _ w Hq Hw) as (w' & Hw' & Hpl & Hfl).
            exists w'. split; [done|]. split; [by apply Hpl|by apply Hfl].
          - exfalso. apply Hpp. by rewrite Hseg, Hq. }
        exists w. rewrite Hframe; [done|done|]. by rewrite <- Hseg.
      * apply list_elem_of_singleton in Hp'. injection Hp' as ->.
        exists container. rewrite Hseg. split; [done|].
        split; [by eexists|done].
    + exists ps', P''. cbn [run]. rewrite Hexec. cbn [mbind option_bind].
      split; [done|].
      split; [done|]. split; [done|].
      intros p0 Hp0. apply Hall. by rewrite <- app_assoc.
Qed.

(** With no member chain a prefix of another, no method name is a
    namespace, nor lies beneath another method. *)
Lemma prefix_free_implied (names : list string) (m m' p : string) :
  (∀ a b, a ∈ names → b ∈ names → segments a `prefix_of` segments b → a = b) →
  m ∈ names → m' ∈ names → implied m' p →
  ¬ segments m `prefix_of` segments p.
Proof.
  intros Hfree Hm Hm' Himp [k Hk].
  destruct (implied_segments _ _ Himp) as (suffix & Hne & Hs).
  assert (Heq : m = m').
  { apply Hfree; [done|done|]. exists (k ++ suffix).
    by rewrite Hs, Hk, <- app_assoc. }
  subst m'. rewrite Hk, <- app_assoc in Hs.
  apply (f_equal length) in Hs. rewrite !length_app in Hs.
  destruct suffix; [done|]. simpl in Hs. lia.
Qed.

(** The method stubs run: each finds its namespace container in place
    and is put at its own member chain, and none disturbs another. *)
Lemma method_phase (N : string → Prop) (todo done : list (string * MethodDef))
  (c : option func) (ps : list (string * node)) (P : node) :
  NoDup (map fst (done ++ todo)) →
  (∀ m, m ∈ map fst (done ++ todo) →
        Forall (fun s => valid_segment s = true) (segments m)) →
  (∀ m def, (m, def) ∈ done ++ todo →
            forallb binding_identifier (printArgs def) = true) →
  (∀ a b, a ∈ map fst (done ++ todo) → b ∈ map fst (done ++ todo) →
          segments a `prefix_of` segments b → a = b) →
  (∀ p, N p → ∃ m, m ∈ map fst (done ++ todo) ∧ implied m p) →
  (∀ m q, m ∈ map fst (done ++ todo) → parent m = Some q → N q) →
  lookup_prop "prototype" ps = Some P → plain_object P →
  (∀ p, N p →
        ∃ w, resolve P (segments p) = Some w ∧ plain_object w ∧ flagged w) →
  (∀ m def, (m, def) ∈ done →
            resolve P (segments m) = Some (fn (stub_of m def))) →
  ∃ ps' P',
    run (map (fun nm => generateMethod (fst nm) (snd nm)) todo)
        (NObj c ps false) = Some (NObj c ps' false)
    ∧ lookup_prop "prototype" ps' = Some P' ∧ plain_object P'
    ∧ (∀ p, N p →
            ∃ w, resolve P' (segments p) = Some w
                 ∧ plain_object w ∧ flagged w)
    ∧ (∀ m def, (m, def) ∈ done ++ todo →
                resolve P' (segments m) = Some (fn (stub_of m def))).
Proof.
  revert done ps P.
  induction todo as [|[m def] todo IH];
    intros done ps P Hnd Hvalid Hformals Hfree Himp Hpar HP Hplain Hns Hdone.
  - exists ps, P. rewrite app_nil_r. done.
  - assert (Hm : m ∈ map fst (done ++ (m, def) :: todo)).
    { rewrite map_app. apply elem_of_app. right. by apply elem_of_cons; left. }
    assert (Hfresh : m ∉ map fst done).
    { rewrite map_app in Hnd. apply NoDup_app in Hnd as (_ & Hnd & _).
      intros Hin. apply (Hnd m Hin). by apply elem_of_cons; left. }
    pose proof (Hvalid m Hm) as Hv.
    assert (Hchain : ∃ pre xk qs,
              segments m = pre ++ [xk]
              ∧ resolve P pre = Some (NObj None qs false)).
    { destruct (parent m) as [q|] eqn:Hq.
      - destruct (parent_Some_segments _ _ Hq) as [xk Hxk].
        destruct (Hns q (Hpar m q Hm Hq)) as (w & Hw & [qs ->] & _).
        by exists (segments q), xk, qs.
      - destruct Hplain as [qs ->].
        exists [], m, qs. by rewrite (parent_None_segments _ Hq). }
    destruct Hchain as (pre & xk & qs & Hseg & Hpre).
    assert (Hxk : String.eqb xk "__proto__" = false).
    { rewrite Hseg in Hv. apply Forall_app in Hv as [_ Hxk].
      apply Forall_inv in Hxk. unfold valid_segment in Hxk.
      apply andb_true_iff in Hxk as [_ Hxk]. by apply negb_true_iff. }
    destruct (update_put_effect pre xk (fn (stub_of m def)) P qs eq_refl
                Hxk Hpre) as (P' & Hup & _ & Hnew & Hkeep & Hframe).
    assert (Hexec : exec (generateMethod m def) (NObj c ps false)
                    = Some (NObj c (set_prop "prototype" P' ps) false)).
    { unfold generateMethod. cbn [exec]. unfold guarded.
      rewrite (parses_valid _ Hv), (Hformals m def), Hseg.
      - by apply (assign_prototype pre xk _ P P').
      - apply elem_of_app. right. by apply elem_of_cons; left. }
    destruct (IH (done ++ [(m, def)]) (set_prop "prototype" P' ps) P')
      as (ps' & P'' & Hrun & HP'' & Hplain'' & Hall & Hmeth).
    + by rewrite <- app_assoc.
    + intros m0. rewrite <- app_assoc. apply Hvalid.
    + intros m0 def0. rewrite <- app_assoc. apply Hformals.
    + intros a b. rewrite <- app_assoc. apply Hfree.
    + intros p. rewrite <- app_assoc. apply Himp.
    + intros m0 q. rewrite <- app_assoc. apply Hpar.
    + apply lookup_set_prop_eq.
    + destruct (Hkeep [] P) as (w' & Hw' & Hpl & _);
        [by exists pre|done|].
      simpl in Hw'. injection Hw' as <-. by apply Hpl.
    + intros p Hp. destruct (Hns p Hp) as (w & Hw & Hwp & Hwf).
      destruct (Himp p Hp) as (m' & Hm' & Himp').
      pose proof (prefix_free_implied _ m m' p Hfree Hm Hm' Himp') as Hno.
      destruct (decide (segments p `prefix_of` pre ++ [xk])) as [Hq|Hq].
      { apply prefix_snoc_inv in Hq as [Hq|Hq].
        - destruct (Hkeep _ w Hq Hw) as (w' & Hw' & Hpl & Hfl).
          exists w'. split; [done|]. split; [by apply Hpl|by apply Hfl].
        - exfalso. apply Hno. by rewrite Hseg, Hq. }
      exists w. rewrite Hframe; [done|done|]. by rewrite <- Hseg.
    + intros m0 def0 [Hin|Hin]%elem_of_app.
      * assert (Hm0 : m0 ∈ map fst (done ++ (m, def) :: todo)).
        { rewrite map_app. apply elem_of_app. left.
          apply list_elem_of_fmap. by exists (m0, def0). }
        assert (Hne : m0 ≠ m).
        { intros ->. apply Hfresh. apply list_elem_of_fmap.
          by exists (m, def0). }
        rewrite Hframe; [by apply Hdone| |].
        -- rewrite <- Hseg. intros Hpre0. by apply Hne, Hfree.
        -- rewrite <- Hseg. intros Hpre0. apply Hne. symmetry. by apply Hfree.
      * apply list_elem_of_singleton in Hin. injection Hin as -> ->.
        by rewrite Hseg.
    + exists ps', P''. cbn [map run fst snd]. rewrite Hexec.
      cbn [mbind option_bind]. split; [done|]. split; [done|].
      split; [done|]. split; [done|].
      intros m0 def0 Hin. apply Hmeth. by rewrite <- app_assoc.
Qed.

(** What [loadable] grants about the method names. *)
Lemma loadable_names (md : Metadata) :
  loadable md = true →
  NoDup (map fst (methods md))
  ∧ (∀ m, m ∈ map fst (methods md) → name_ok m = true)
  ∧ (∀ m def, (m, def) ∈ methods md →
              forallb binding_identifier (printArgs def) = true)
  ∧ (∀ a b, a ∈ map fst (methods md) → b ∈ map fst (methods md) →
            segments a `prefix_of` segments b → a = b).
Proof.
  unfold loadable.
  intros [[[[_ Hok]%andb_true_iff Hformals]%andb_true_iff
             Hnd]%andb_true_iff Hfree]%andb_true_iff.
  split; [by apply bool_decide_eq_true in Hnd|]. split; [|split].
  - intros m Hm. apply forallb_Forall in Hok.
    by apply (proj1 (Forall_forall _ _) Hok).
  - intros m def Hin. apply forallb_Forall in Hformals.
    apply (proj1 (Forall_forall _ _) Hformals (m, def) Hin).
  - intros a b Ha Hb. apply forallb_Forall in Hfree.
    pose proof (proj1 (Forall_forall _ _) Hfree a Ha) as Hfa. simpl in Hfa.
    apply forallb_Forall in Hfa.
    pose proof (proj1 (Forall_forall _ _) Hfa b Hb) as Hfb. simpl in Hfb.
    by apply bool_decide_eq_true in Hfb.
Qed.

Lemma name_ok_valid (m : string) :
  name_ok m = true → Forall (fun s => valid_segment s = true) (segments m).
Proof.
  unfold name_ok. intros [H _]%andb_true_iff. by apply forallb_Forall.
Qed.

(** No namespace of a sound method name is a name that object literals
    inherit. *)
Lemma name_ok_implied (m q : string) :
  name_ok m = true → implied m q → q ∉ Object_prototype_keys.
Proof.
  intros Hok Himp Hq.
  destruct (implied_segments _ _ Himp) as (suffix & Hne & Hs).
  rewrite (parent_None_segments _ (Object_prototype_keys_top _ Hq)) in Hs.
  unfold name_ok in Hok. apply andb_true_iff in Hok as [_ Hok].
  rewrite Hs in Hok. destruct suffix as [|a suffix]; [done|].
  simpl in Hok. by apply bool_decide_eq_true in Hok.
Qed.

Lemma implied_trans (s p q : string) :
  implied s p → implied p q → implied s q.
Proof.
  induction 1 as [s p Hp|s p r Hp _ IH]; intros Hq.
  - by apply (implied_further s p).
  - apply (implied_further s p); [done|]. by apply IH.
Qed.

(** X14: for a local name that can be declared and that the template
    does not use itself, and for metadata that is [loadable] (enum names and
    labels that are assignable identifiers, method names made of identifier
    segments, parameter names that can be declared, each method once and
    none that is also a namespace of another) the generated source loads
    without raising; on the class it defines every method's stub sits at the
    method's member chain below the prototype, and every namespace stub is a
    plain container whose [_ns] reads true. *)
Theorem loadable_loads (localName : string) (md : Metadata) :
  local_name_ok localName = true →
  loadable md = true →
  ∃ cls,
    load localName md = Some cls
    ∧ (∀ m def, (m, def) ∈ methods md →
         resolve (get cls "prototype") (segments m)
         = Some (fn (stub_of m def)))
    ∧ (∀ p, ENamespace p ∈ generateNamespaces md →
         ∃ w, resolve (get cls "prototype") (segments p) = Some w
              ∧ plain_object w ∧ flagged w).
Proof.
  intros Hname Hload.
  destruct (loadable_names md Hload) as (Hnd & Hok & Hformals & Hfree).
  assert (Htypes : forallb (fun kt => type_ok (snd kt)) (types md) = true).
  { unfold loadable in Hload.
    by apply andb_true_iff in Hload as
      [[[[? _]%andb_true_iff _]%andb_true_iff _]%andb_true_iff _]. }
  destruct (forEach_stubNamespace_inv (namespaces md) empty_gen empty_gen_inv)
    as (Hinv & _ & Hcov).
  fold (generateNamespaces md) in *.
  unfold load. rewrite Hname. unfold render. rewrite run_app.
  unfold generateTypes, template_class.
  destruct (generateTypes_run (types md) (Some (FCtor localName))
              [("prototype", NObj None template_prototype false)] Htypes)
    as (ps1 & -> & HP1).
  cbn [mbind option_bind]. rewrite run_app.
  destruct (namespace_phase (generateNamespaces md) []
              (Some (FCtor localName)) ps1
              (NObj None template_prototype false))
    as (ps2 & P2 & -> & HP2 & Hplain2 & Hns2).
  - apply (inv_nodup _ Hinv).
  - intros x Hx. destruct (generateNamespaces_elem md x Hx)
      as (m & p & -> & Hm & Himp & _).
    exists p. split; [done|].
    destruct (implied_segments _ _ Himp) as (suffix & _ & Hs).
    pose proof (name_ok_valid m (Hok m Hm)) as Hv. rewrite Hs in Hv.
    by apply Forall_app in Hv as [? _].
  - intros p q Hp Himp.
    destruct (ancestors_first _ p q Hinv Hp Himp) as [Hq|Hb]; [|done].
    exfalso. destruct (generateNamespaces_elem md _ Hp)
      as (m & p' & [= <-] & Hm & Himp' & _).
    by apply (name_ok_implied m q (Hok m Hm) (implied_trans _ _ _ Himp' Himp)).
  - done.
  - by eexists.
  - intros p Hp. by apply elem_of_nil in Hp.
  - cbn [mbind option_bind].
    destruct (method_phase (fun p => ENamespace p ∈ generateNamespaces md)
                (methods md) [] (Some (FCtor localName)) ps2 P2)
      as (ps3 & P3 & Hrun & HP3 & _ & Hns3 & Hm3).
    + done.
    + intros m Hm. by apply name_ok_valid, Hok.
    + done.
    + done.
    + intros p Hp. destruct (generateNamespaces_elem md _ Hp)
        as (m & p' & [= <-] & Hm & Himp' & _). by exists m.
    + intros m q Hm Hq.
      destruct (Hcov q (namespaces_parent md m q Hm Hq)) as [Hopk|Hin];
        [|done].
      exfalso. apply (name_ok_implied m q (Hok m Hm)); [|done].
      by apply implied_parent.
    + done.
    + done.
    + done.
    + intros m def Hin. by apply elem_of_nil in Hin.
    + exists (NObj (Some (FCtor localName)) ps3 false).
      split; [exact Hrun|]. cbn [get]. rewrite HP3. done.
Qed.

(** The metadata with the methods [a.b.foo], [a.bar] and [top] loads. *)
Lemma loadable_loads_witness :
  local_name_ok "Proxy" = true
  ∧ loadable nested = true
  ∧ ∃ cls,
      load "Proxy" nested = Some cls
      ∧ (∀ m def, (m, def) ∈ methods nested →
           resolve (get cls "prototype") (segments m)
           = Some (fn (stub_of m def)))
      ∧ (∀ p, ENamespace p ∈ generateNamespaces nested →
           ∃ w, resolve (get cls "prototype") (segments p) = Some w
                ∧ plain_object w ∧ flagged w).
Proof.
  split; [reflexivity|]. split; [reflexivity|].
  apply (loadable_loads "Proxy" nested); reflexivity.
Defined.




(** ** Methods without namespace *)

Lemma stub_not_flagged (f : func) : truthy_node (get (fn f) "_ns") = false.
Proof. reflexivity. Qed.

(** X16: a method stub that sits directly in the prototype is not copied
    to a new instance nor bound: [proxy.k] reads the prototype's stub
    itself.  Called as [proxy.k(...)] it sends the stub's request over the
    instance's tunnel with the transport [http]; called without a receiver
    it raises a type error. *)
Theorem toplevel_stub_unbound (localName : string) (md : Metadata)
  (cls : node) (fuel : nat) (url ssl : jsval) (h h' : heap) (self : loc)
  (i : instance) (k m : string) (n : nat) (er : bool) :
  load localName md = Some cls →
  new_Proxy fuel cls url ssl h = Some (Ok (self, h')) →
  h' !! self = Some i →
  lookup_prop k (prototype cls) = Some (fn (FStub m n er)) →
  k ∉ ["defaultTransport"; "rpc"] →
  member_value cls i k = Some (fn (FStub m n er))
  ∧ (∀ args,
       invoke cls self k args h'
       = Some (Ok (VUndefined,
                   <[self := set_rpc
                               (log_call (stub_request m n er (Some "http") args)
                                         (new_tunnel url ssl)) i]> h')))
  ∧ (∀ f ps fr args h2,
       member_value cls i k = Some (NObj (Some f) ps fr) →
       call_func f VUndefined args h2 = Some (Throw TypeError)).
Proof.
  intros Hload Hnew Hi Hk Hown.
  pose proof (load_wf _ _ _ Hload) as Hwf.
  destruct (prototype_wf cls Hwf) as [Hnd _].
  destruct (new_Proxy_tunnel _ _ _ _ _ _ _ Hnew) as (i' & Hi' & Hrpc & Htr & _).
  rewrite Hi in Hi'. injection Hi' as <-.
  assert (Hmv : member_value cls i k = Some (fn (FStub m n er))).
  { destruct (new_Proxy_constructed _ _ _ _ _ _ _ _ Hnew Hi) as (-> & -> & _).
    rewrite member_value_constructed by done.
    destruct (lookup_prop k (rebind_all (length h) (prototype cls)))
      as [v'|] eqn:Hv'; [|by rewrite Hk].
    apply rebind_all_inv in Hv' as [?|(_ & v & Hin & Hns & _)]; [done|].
    apply (elem_lookup_prop _ _ _ Hnd) in Hin. rewrite Hk in Hin.
    injection Hin as <-. by rewrite stub_not_flagged in Hns. }
  split; [done|]. split.
  - intros args. unfold invoke. rewrite Hi. cbn [mbind option_bind].
    rewrite Hmv. unfold fn.
    rewrite (stub_call_sends m n er args h' self i _ Hi Hrpc). by rewrite Htr.
  - intros f ps fr args h2. rewrite Hmv. by intros [= <- _ _].
Qed.

(** The method [top] on an instance of the class loaded for three
    methods. *)
Lemma toplevel_stub_unbound_witness :
  load "Tester" nested = Some nested_class
  ∧ new_Proxy 0 nested_class (VStr "http://host") VUndefined []
    = Some (Ok (0%nat, [nested_instance]))
  ∧ member_value nested_class nested_instance "top"
    = Some (fn (FStub "top" 0 false))
  ∧ (∀ args,
       invoke nested_class 0%nat "top" args [nested_instance]
       = Some (Ok (VUndefined,
                   <[0%nat := set_rpc
                       (log_call (stub_request "top" 0 false (Some "http")
                                    args)
                                 (new_tunnel (VStr "http://host") VUndefined))
                       nested_instance]> [nested_instance])))
  ∧ (∀ f ps fr args h2,
       member_value nested_class nested_instance "top"
       = Some (NObj (Some f) ps fr) →
       call_func f VUndefined args h2 = Some (Throw TypeError)).
Proof.
  assert (Hload : load "Tester" nested = Some nested_class)
    by (vm_compute; reflexivity).
  assert (Hnew : new_Proxy 0 nested_class (VStr "http://host") VUndefined []
                 = Some (Ok (0%nat, [nested_instance])))
    by (vm_compute; reflexivity).
  assert (Hk : lookup_prop "top" (prototype nested_class)
               = Some (fn (FStub "top" 0 false)))
    by (vm_compute; reflexivity).
  assert (Hown : "top" ∉ ["defaultTransport"; "rpc"]) by by_compute.
  do 2 (split; [done|]).
  exact (toplevel_stub_unbound "Tester" nested nested_class 0
           (VStr "http://host") VUndefined [] [nested_instance] 0%nat
           nested_instance "top" "top" 0 false Hload Hnew eq_refl Hk Hown).
Defined.

(** ** Names the generated source cannot use *)

Lemma run_fails (x : fragment) (frs : list fragment) (cls : node) :
  x ∈ frs → (∀ c, exec x c = None) → run frs cls = None.
Proof.
  intros Hin Hx. revert cls.
  induction frs as [|fr frs IH]; intros cls; [by apply elem_of_nil in Hin|].
  apply elem_of_cons in Hin as [<-|Hin]; cbn [run].
  - by rewrite Hx.
  - destruct (exec fr cls); [by apply IH|done].
Qed.

Lemma parses_empty_segment (path : list string) :
  "" ∈ path → parses path = false.
Proof.
  induction path as [|s path IH]; [by intros ?%elem_of_nil|].
  intros [<-|Hin]%elem_of_cons; [done|].
  simpl. rewrite (IH Hin). apply andb_false_r.
Qed.

(** X17: a method whose name has an empty segment (a leading, trailing or
    doubled dot) makes the whole generated source fail to load, whatever
    else the metadata holds: its stub is written as a member chain that
    does not parse. *)
Theorem empty_segment_breaks_load (localName : string) (md : Metadata)
  (m : string) (def : MethodDef) :
  (m, def) ∈ methods md → "" ∈ segments m → load localName md = None.
Proof.
  intros Hin Hempty. unfold load.
  destruct (local_name_ok localName); [|done].
  apply (run_fails (generateMethod m def)).
  - unfold render. apply elem_of_app. right. apply elem_of_app. right.
    unfold generateMethods. apply list_elem_of_fmap. by exists (m, def).
  - intros c. unfold generateMethod. cbn [exec]. unfold guarded.
    by rewrite (parses_empty_segment _ Hempty).
Qed.

(** A method named [a..b], listed after a sound one. *)
Lemma empty_segment_breaks_load_witness :
  load "Proxy"
    {| types := [];
       methods := [("sum", {| params := []; returns := None; async := false |});
                   ("a..b", {| params := []; returns := None; async := false |})];
       events := [] |} = None.
Proof.
  apply (empty_segment_breaks_load "Proxy" _ "a..b"
           {| params := []; returns := None; async := false |}).
  - cbn [methods]. do 2 constructor.
  - by_compute.
Defined.

(** ** Struct types *)

(** X18: a struct type emits nothing: the text rendered for metadata with
    a struct type anywhere among its types is the text rendered without
    it. *)
Theorem struct_types_emit_nothing (ts1 ts2 : list (string * TypeDef))
  (key name : string) (fields : list (string * FieldDef))
  (ms : list (string * MethodDef)) (es : list (string * EventDef)) :
  render {| types := ts1 ++ (key, StructType name fields) :: ts2;
            methods := ms; events := es |}
  = render {| types := ts1 ++ ts2; methods := ms; events := es |}.
Proof.
  unfold render. f_equal. unfold generateTypes. cbn [types].
  by rewrite !map_app, !concat_app.
Qed.
